(** * softlearning.policies.gaussian_policy

    A shallow embedding of [GaussianPolicy] and [SquashBijector] over exact
    real arithmetic.  Tensors of rank one are lists of reals, tensors of
    rank two are lists of rows.  The numeric primitives of the tensor
    backend ([tf.log], [tf.exp], [tf.nn.softplus], [tf.nn.tanh], [tf.atanh],
    [tf.clip_by_value]) are the corresponding functions on [R]; rounding is
    not part of that model.  A value that the backend would report as NaN or
    as an infinity has no counterpart in [R] and is modelled by [None].

    The squash is where rounding decides what holds: in [float32] the
    hyperbolic tangent reaches 1 and -1.  A second layer, [Binary32] and the
    definitions ending in [32], evaluates the squash bijector in that format;
    the statements on the range of the sampled actions, on scoring them and
    on the stable log-det-Jacobian are made there. *)

From Stdlib Require Import Reals Lra Lia List Bool Arith ZArith.
From Stdlib Require String.
Import ListNotations.

Local Open Scope R_scope.

(* ================================================================= *)
(** ** Numeric primitives *)

Module Numerics.

(** [tf.nn.softplus] *)
Definition softplus (x : R) : R := ln (1 + exp x).

(** [tf.atanh], finite exactly on the open interval (-1, 1) *)
Definition atanh (y : R) : R := / 2 * ln ((1 + y) / (1 - y)).

(** [tf.clip_by_value t lo hi]: the minimum with [hi] is taken first,
    the maximum with [lo] second. *)
Definition clip_by_value (t lo hi : R) : R := Rmax (Rmin t hi) lo.

(** [tf.keras] activations, selected by name in the source *)
Inductive Activation : Type :=
| relu
| linear
| act_tanh
| act_softplus.

Definition apply_activation (a : Activation) (x : R) : R :=
  match a with
  | relu => Rmax x 0
  | linear => x
  | act_tanh => tanh x
  | act_softplus => softplus x
  end.

End Numerics.
Export Numerics.

(* ================================================================= *)
(** ** Tensors *)

(** A tensor of rank one. *)
Abbreviation Vec := (list R) (only parsing).

(** A tensor of rank two: the batch axis first, the feature axis last. *)
Abbreviation Tensor := (list (list R)) (only parsing).

Definition map2 {X Y Z : Type} (f : X -> Y -> Z) (l : list X) (l' : list Y) : list Z :=
  map (fun xy => f (fst xy) (snd xy)) (combine l l').

(** [tf.reduce_sum] over the last axis *)
Definition reduce_sum (v : Vec) : R := fold_right Rplus 0 v.

Definition tf_zeros (n : nat) : Vec := repeat 0 n.
Definition tf_ones (n : nat) : Vec := repeat 1 n.

(** [tf.split(x, num_or_size_splits=2, axis=-1)] *)
Definition tf_split2 (v : Vec) : Vec * Vec :=
  (firstn (length v / 2) v, skipn (length v / 2) v).

(** [tf.concat(ts, axis=-1)] on tensors with [n] rows each *)
Fixpoint tf_concat_last (n : nat) (ts : list Tensor) : Tensor :=
  match ts with
  | [] => repeat [] n
  | t :: rest => map2 (@app R) t (tf_concat_last n rest)
  end.

Definition has_shape (n d : nat) (t : Tensor) : bool :=
  (length t =? n)%nat && forallb (fun row => (length row =? d)%nat) t.

(** The outcome of evaluating a model on given tensors.  [ShapeMismatch]
    stands for tensors that do not have the shapes the model's inputs
    declare; the tensor backend rejects them (or, for some batch sizes,
    broadcasts them), and this development describes neither. *)
Inductive result (X : Type) : Type :=
| Ok (x : X)
| ShapeMismatch.
Arguments Ok {X} x.
Arguments ShapeMismatch {X}.

Definition result_map {X Y : Type} (f : X -> Y) (r : result X) : result Y :=
  match r with
  | Ok x => Ok (f x)
  | ShapeMismatch => ShapeMismatch
  end.

Definition obind {X Y : Type} (o : option X) (k : X -> option Y) : option Y :=
  match o with
  | Some x => k x
  | None => None
  end.

Notation "x <- o ;; k" := (obind o (fun x => k))
  (at level 61, o at next level, right associativity).

(* ================================================================= *)
(** ** Bijectors *)

(** [SquashBijector._forward_log_det_jacobian], on one coordinate:
    [2.0 * (tf.log(2.0) - x - tf.nn.softplus(-2.0 * x))]. *)
Definition SquashBijector_forward_log_det_jacobian (x : R) : R :=
  2 * (ln 2 - x - softplus (-2 * x)).

(** The textbook form the stable formula replaces. *)
Definition naive_log_det_jacobian (x : R) : R := ln (1 - tanh x ^ 2).

Definition in_open_unit (y : R) : bool :=
  if Rlt_dec (-1) y then (if Rlt_dec y 1 then true else false) else false.

Definition nonzero (d : R) : bool :=
  if Req_dec_T d 0 then false else true.

(** The bijectors the policy builds.  [SquashBijector] is the subclass of
    [tfp.bijectors.Tanh] of the source: [_forward] ([tf.nn.tanh]) and
    [_inverse] ([tf.atanh]) are inherited, the forward log-det-Jacobian is
    overridden.  [Affine] carries [shift] and [scale_diag]. *)
#[warnings="-register-all"]
Inductive Bijector : Type :=
| Affine (shift scale_diag : Vec)
| SquashBijector
| Identity
| Chain (bijectors : list Bijector).

(** [forward]; a chain applies its last member first. *)
Fixpoint forward (b : Bijector) (x : Vec) : Vec :=
  match b with
  | Affine shift scale_diag => map2 Rplus (map2 Rmult scale_diag x) shift
  | SquashBijector => map tanh x
  | Identity => x
  | Chain bs =>
      (fix go (l : list Bijector) : Vec :=
         match l with
         | [] => x
         | b' :: l' => forward b' (go l')
         end) bs
  end.

(** [inverse]; a chain inverts its first member first.  Division by a zero
    scale and [tf.atanh] outside (-1, 1) are not finite. *)
Fixpoint inverse (b : Bijector) (y : Vec) : option Vec :=
  match b with
  | Affine shift scale_diag =>
      if forallb nonzero scale_diag
      then Some (map2 Rdiv (map2 Rminus y shift) scale_diag)
      else None
  | SquashBijector =>
      if forallb in_open_unit y then Some (map atanh y) else None
  | Identity => Some y
  | Chain bs =>
      (fix go (l : list Bijector) (y : Vec) : option Vec :=
         match l with
         | [] => Some y
         | b' :: l' => x <- inverse b' y ;; go l' x
         end) bs y
  end.

(** [forward_log_det_jacobian(x, event_ndims=1)]: one number per event.
    The affine bijector's is the log of the absolute determinant of its
    diagonal scale; the squash bijector's is summed over the event; a chain
    accumulates from its last member to its first, each member evaluated at
    the running forward image (the second component of the loop). *)
Fixpoint forward_log_det_jacobian (b : Bijector) (x : Vec) : option R :=
  match b with
  | Affine shift scale_diag =>
      if forallb nonzero scale_diag
      then Some (reduce_sum (map (fun d => ln (Rabs d)) scale_diag))
      else None
  | SquashBijector =>
      Some (reduce_sum (map SquashBijector_forward_log_det_jacobian x))
  | Identity => Some 0
  | Chain bs =>
      r <- (fix go (l : list Bijector) : option (R * Vec) :=
              match l with
              | [] => Some (0, x)
              | b' :: l' =>
                  acc <- go l' ;;
                  j <- forward_log_det_jacobian b' (snd acc) ;;
                  Some (fst acc + j, forward b' (snd acc))
              end) bs ;;
      Some (fst r)
  end.

(** [inverse_log_det_jacobian(y, event_ndims=1)].  The source overrides
    the forward log-det-Jacobian only; the inverse one of a single bijector
    is minus the forward one at the inverse image (for the squash bijector
    that is [- log (1 - y^2)], see [squash_ildj_closed_form]).  A chain sums
    its members' along the inversion path, first member first. *)
Fixpoint inverse_log_det_jacobian (b : Bijector) (y : Vec) : option R :=
  match b with
  | Chain bs =>
      (fix go (l : list Bijector) (y : Vec) : option R :=
         match l with
         | [] => Some 0
         | b' :: l' =>
             j <- inverse_log_det_jacobian b' y ;;
             x <- inverse b' y ;;
             acc <- go l' x ;;
             Some (j + acc)
         end) bs y
  | _ =>
      x <- inverse b y ;;
      j <- forward_log_det_jacobian b x ;;
      Some (- j)
  end.

(* ================================================================= *)
(** ** Distributions *)

(** [tfp.distributions.MultivariateNormalDiag(loc, scale_diag)] *)
Record MultivariateNormalDiag : Type := {
  loc : Vec;
  scale_diag : Vec
}.

(** The log-density of the standard normal at one coordinate. *)
Definition normal_log_prob (z : R) : R := - / 2 * (z * z) - / 2 * ln (2 * PI).

Definition MultivariateNormalDiag_log_prob (d : MultivariateNormalDiag) (x : Vec) : R :=
  reduce_sum (map normal_log_prob (map2 Rdiv (map2 Rminus x (loc d)) (scale_diag d)))
  - reduce_sum (map (fun s => ln (Rabs s)) (scale_diag d)).

(** The source of randomness: the unbounded stream of standard-normal
    draws that the seed fixes, and the position of the next unread one.
    The position is the state the sampling op keeps between runs of the
    model: every run reads fresh draws and moves it on, so a seed fixes the
    stream for the whole session but not the draws of any one call. *)
Record Generator : Type := {
  stream : nat -> R;
  position : nat
}.

(** [base_distribution.sample(n)]: [n] events, read row by row from the
    stream, each draw scaled and shifted by the distribution's parameters. *)
Definition MultivariateNormalDiag_sample (d : MultivariateNormalDiag)
    (n : nat) (g : Generator) : Tensor * Generator :=
  let A := length (loc d) in
  (map (fun i =>
          map2 Rplus
               (map2 Rmult (scale_diag d)
                     (map (fun j => stream g (position g + i * A + j)%nat) (seq 0 A)))
               (loc d))
       (seq 0 n),
   {| stream := stream g; position := (position g + n * A)%nat |}).

(** [ConditionalTransformedDistribution(distribution, bijector).log_prob(y)] *)
Definition TransformedDistribution_log_prob (d : MultivariateNormalDiag)
    (b : Bijector) (y : Vec) : option R :=
  x <- inverse b y ;;
  ildj <- inverse_log_det_jacobian b y ;;
  Some (MultivariateNormalDiag_log_prob d x + ildj).

(* ================================================================= *)
(** ** GaussianPolicy *)

Definition SCALE_DIAG_MIN_MAX : R * R := (-20, 2).

(** The variables of the dense layers, by layer number: [kernel l i j]
    is the weight from input [i] to unit [j] of layer [l], [bias l j] the
    bias of that unit. *)
Record Weights : Type := {
  kernel : nat -> nat -> nat -> R;
  bias : nat -> nat -> R
}.

(** The policy object.  [input_shapes] holds the feature width [n] of each
    conditioning source (the tuple [(n,)] of the source), [output_shape]
    the action dimension [A] (the tuple [(A,)]). *)
Record GaussianPolicy : Type := {
  _squash : bool;
  _regularization_coeff : R;
  input_shapes : list nat;
  output_shape : nat;
  hidden_layer_sizes : list nat;
  activation : Activation;
  output_activation : Activation;
  name : option String.string;
  weights : Weights
}.

(** [GaussianPolicy.__init__]; [w] stands for the values the layers'
    initializers give the variables.  Concatenating an empty list of
    condition inputs is rejected when the graph is built. *)
Definition GaussianPolicy_init (input_shapes : list nat) (output_shape : nat)
    (hidden_layer_sizes : list nat) (squash : bool) (regularization_coeff : R)
    (activation output_activation : Activation) (name : option String.string)
    (w : Weights) : result GaussianPolicy :=
  match input_shapes with
  | [] => ShapeMismatch
  | _ :: _ =>
      Ok {| _squash := squash;
            _regularization_coeff := regularization_coeff;
            input_shapes := input_shapes;
            output_shape := output_shape;
            hidden_layer_sizes := hidden_layer_sizes;
            activation := activation;
            output_activation := output_activation;
            name := name;
            weights := w |}
  end.

(** [tf.keras.layers.Dense(units, activation)] applied to one row. *)
Definition Dense (units : nat) (act : Activation)
    (k : nat -> nat -> R) (b : nat -> R) (x : Vec) : Vec :=
  map (fun j =>
         apply_activation act
           (reduce_sum (map2 (fun i xi => xi * k i j) (seq 0 (length x)) x) + b j))
      (seq 0 units).

(** The loop [for units in hidden_layer_sizes: out = Dense(units, ...)(out)];
    [l] numbers the layer being built. *)
Fixpoint hidden_stack (act : Activation) (w : Weights) (l : nat)
    (sizes : list nat) (out : Vec) : Vec :=
  match sizes with
  | [] => out
  | units :: rest =>
      hidden_stack act w (S l) rest (Dense units act (kernel w l) (bias w l) out)
  end.

(** One trainable variable: a kernel matrix or a bias vector. *)
Inductive TrainableVariable : Type :=
| kernel_variable (k : Tensor)
| bias_variable (b : Vec).

(** The batch size [tf.shape(x)[0]] of the condition inputs. *)
Definition batch_of (condition_inputs : list Tensor) : nat :=
  match condition_inputs with
  | [] => 0
  | t :: _ => length t
  end.

(** [raw_actions_fn], on one row of the batch. *)
Definition raw_actions_fn (inputs : Vec * Vec * Vec) : Vec :=
  let '(shift, log_scale_diag, latents) := inputs in
  let bijector := Affine shift (map exp log_scale_diag) in
  forward bijector latents.

Section Policy.

Variable p : GaussianPolicy.

(** The [Lambda] layer that concatenates the condition inputs, behind the
    shape check of the [Input] layers. *)
Definition conditions_layer (condition_inputs : list Tensor) : result Tensor :=
  match condition_inputs with
  | [] => ShapeMismatch
  | _ :: _ =>
      if (length condition_inputs =? length (input_shapes p))%nat
         && forallb (fun dt => has_shape (batch_of condition_inputs) (fst dt) (snd dt))
                    (combine (input_shapes p) condition_inputs)
      then Ok (tf_concat_last (batch_of condition_inputs) condition_inputs)
      else ShapeMismatch
  end.

(** The dense stack up to the final layer of [output_shape[0] * 2] units. *)
Definition network_out (row : Vec) : Vec :=
  let L := length (hidden_layer_sizes p) in
  Dense (output_shape p * 2) (output_activation p)
        (kernel (weights p) L) (bias (weights p) L)
        (hidden_stack (activation p) (weights p) 0 (hidden_layer_sizes p) row).

(** The split into [shift] and [log_scale_diag], the latter clipped. *)
Definition shift_and_log_scale_diag (row : Vec) : Vec * Vec :=
  let halves := tf_split2 (network_out row) in
  (fst halves,
   map (fun l => clip_by_value l (fst SCALE_DIAG_MIN_MAX) (snd SCALE_DIAG_MIN_MAX))
       (snd halves)).

Definition base_distribution : MultivariateNormalDiag :=
  {| loc := tf_zeros (output_shape p); scale_diag := tf_ones (output_shape p) |}.

Definition squash_bijector : Bijector :=
  if _squash p then SquashBijector else Identity.

(** The [raw_actions] tensor of the graph: conditioner, latent draw of
    [batch_size] events, affine step. *)
Definition raw_actions (condition_inputs : list Tensor) (g : Generator)
    : result Tensor * Generator :=
  match conditions_layer condition_inputs with
  | ShapeMismatch => (ShapeMismatch, g)
  | Ok conditions =>
      let params := map shift_and_log_scale_diag conditions in
      let batch_size := length conditions in
      let (latents, g') := MultivariateNormalDiag_sample base_distribution batch_size g in
      (Ok (map raw_actions_fn (combine params latents)), g')
  end.

(** [self.actions_model] *)
Definition actions_model (condition_inputs : list Tensor) (g : Generator)
    : result Tensor * Generator :=
  let (raw, g') := raw_actions condition_inputs g in
  (result_map (map (forward squash_bijector)) raw, g').

(** [log_pis_fn], on one row of the batch; the result row has one entry
    ([[:, None]] adds the trailing axis). *)
Definition log_pis_fn (inputs : Vec * Vec * Vec) : list (option R) :=
  let '(shift, log_scale_diag, actions) := inputs in
  let base_distribution :=
    {| loc := tf_zeros (output_shape p); scale_diag := tf_ones (output_shape p) |} in
  let bijector :=
    Chain [squash_bijector; Affine shift (map exp log_scale_diag)] in
  [TransformedDistribution_log_prob base_distribution bijector actions].

(** [self.log_pis_model] *)
Definition log_pis_model (condition_inputs : list Tensor) (actions_input : Tensor)
    : result (list (list (option R))) :=
  match conditions_layer condition_inputs with
  | ShapeMismatch => ShapeMismatch
  | Ok conditions =>
      if has_shape (length conditions) (output_shape p) actions_input
      then Ok (map log_pis_fn
                   (combine (map shift_and_log_scale_diag conditions) actions_input))
      else ShapeMismatch
  end.

Definition layer_variables (l in_dim units : nat) : list TrainableVariable :=
  [kernel_variable
     (map (fun i => map (fun j => kernel (weights p) l i j) (seq 0 units)) (seq 0 in_dim));
   bias_variable (map (fun j => bias (weights p) l j) (seq 0 units))].

Fixpoint stack_variables (l in_dim : nat) (sizes : list nat) : list TrainableVariable :=
  match sizes with
  | [] => layer_variables l in_dim (output_shape p * 2)
  | units :: rest => layer_variables l in_dim units ++ stack_variables (S l) units rest
  end.

Definition trainable_variables : list TrainableVariable :=
  stack_variables 0 (list_sum (input_shapes p)) (hidden_layer_sizes p).

Definition reset : GaussianPolicy := p.

Definition actions (conditions : list Tensor) (g : Generator) :=
  actions_model conditions g.

Definition log_pis (conditions : list Tensor) (actions : Tensor) :=
  log_pis_model conditions actions.

(** [predict] evaluates the same graph on concrete arrays. *)
Definition actions_np (conditions : list Tensor) (g : Generator) :=
  actions_model conditions g.

Definition log_pis_np (conditions : list Tensor) (actions : Tensor) :=
  log_pis_model conditions actions.

End Policy.

(** [get_diagnostics]: [OrderedDict({})] *)
Definition get_diagnostics (self : GaussianPolicy) (iteration : nat)
    (batch : list Tensor) : list (String.string * R) := [].

(* ================================================================= *)
(** ** The squash in binary32 *)

(** The [float32] format on the reals: 24 bits of precision, exponents
    down to [2^-149] (gradual underflow), overflow from [2^128] on.
    [round] takes a real to the nearest number of the format, ties to the
    even mantissa; [rnd] is [round] with overflow, [None] standing for an
    infinity. *)
Module Binary32.

Definition prec : Z := 24.
Definition emin : Z := -149.
Definition emax : Z := 128.

Definition bpow (e : Z) : R := powerRZ 2 e.

(** A number of the format: a mantissa below [2^24] times a power of two
    not below [2^-149]. *)
Definition format (x : R) : Prop :=
  exists m e : Z, x = IZR m * bpow e /\ (Z.abs m < 2 ^ prec)%Z /\ (emin <= e)%Z.

Definition ZnearestE (x : R) : Z :=
  let f := Zfloor x in
  let d := x - IZR f in
  if Rlt_dec d (/ 2) then f
  else if Rlt_dec (/ 2) d then (f + 1)%Z
  else if Z.even f then f else (f + 1)%Z.

(** The exponent [e] with [2^(e-1) <= |x| < 2^e]. *)
Definition mag (x : R) : Z := (Zfloor (ln (Rabs x) / ln 2) + 1)%Z.

(** The exponent of the last place of [x]. *)
Definition cexp (x : R) : Z := Z.max (mag x - prec) emin.

Definition round (x : R) : R :=
  IZR (ZnearestE (x * bpow (- cexp x))) * bpow (cexp x).

Definition rnd (x : R) : option R :=
  if Rlt_dec (Rabs (round x)) (bpow emax) then Some (round x) else None.

End Binary32.

(** [tf.nn.tanh] on a [float32]: the [float32] nearest to the hyperbolic
    tangent. *)
Definition tanh32 (x : R) : R := Binary32.round (tanh x).

(** [squash_bijector.forward] with the squash evaluated in binary32; the
    identity rounds nothing. *)
Definition forward32 (b : Bijector) (x : Vec) : Vec :=
  match b with
  | SquashBijector => map tanh32 x
  | _ => forward b x
  end.

(** [self.actions_model] with the squash evaluated in binary32. *)
Definition actions_model32 (p : GaussianPolicy) (condition_inputs : list Tensor)
    (g : Generator) : result Tensor * Generator :=
  let (raw, g') := raw_actions p condition_inputs g in
  (result_map (map (forward32 (squash_bijector p))) raw, g').

Definition actions32 (p : GaussianPolicy) (conditions : list Tensor) (g : Generator) :=
  actions_model32 p conditions g.


(** [SquashBijector._forward_log_det_jacobian] in binary32, one rounding
    per operation: [2.0 * (tf.log(2.0) - x - tf.nn.softplus(-2.0 * x))]. *)
Definition SquashBijector_forward_log_det_jacobian32 (x : R) : option R :=
  l2 <- Binary32.rnd (ln 2) ;;
  m <- Binary32.rnd (-2 * x) ;;
  s <- Binary32.rnd (softplus m) ;;
  a <- Binary32.rnd (l2 - x) ;;
  b <- Binary32.rnd (a - s) ;;
  Binary32.rnd (2 * b).

(** The textbook form in binary32, [tf.log(1 - tf.tanh(x) ** 2)]; the
    logarithm of zero is not finite. *)
Definition naive_log_det_jacobian32 (x : R) : option R :=
  q <- Binary32.rnd (tanh32 x * tanh32 x) ;;
  d <- Binary32.rnd (1 - q) ;;
  if Rlt_dec 0 d then Binary32.rnd (ln d) else None.

(* ================================================================= *)
(** ** A concrete policy *)

(** Two action dimensions, no hidden layer, one conditioning source of
    three features, a batch of four rows. *)
Module Scenario.

Definition w : Weights :=
  {| kernel := fun _ i j => INR (i + j) / 10;
     bias := fun _ j => INR j - 1 |}.

Definition make (squash : bool) (regularization_coeff : R) : GaussianPolicy :=
  {| _squash := squash;
     _regularization_coeff := regularization_coeff;
     input_shapes := [3%nat];
     output_shape := 2;
     hidden_layer_sizes := [];
     activation := relu;
     output_activation := linear;
     name := None;
     weights := w |}.

Definition policy : GaussianPolicy := make true (1 / 1000).

Definition unsquashed : GaussianPolicy := make false (1 / 1000).

Definition conditions : list Tensor :=
  [[[0; 1; 2]; [1; 0; -1]; [3; 3; 3]; [-2; 0; 5]]].

Definition concatenated : Tensor :=
  [[0; 1; 2]; [1; 0; -1]; [3; 3; 3]; [-2; 0; 5]].

Definition candidates : Tensor :=
  [[0; 0]; [1 / 2; -1 / 2]; [9 / 10; 0]; [0; -9 / 10]].

Definition generator : Generator :=
  {| stream := fun n => INR n / 4 - 1; position := 0 |}.

End Scenario.

(** Variations of the concrete policy. *)
Module Variants.

(** The variables of [Scenario.w] inside the layer's shape, other values
    outside it. *)
Definition padded_w : Weights :=
  {| kernel := fun l i j =>
       if ((l =? 0) && (i <? 3) && (j <? 4))%nat then INR (i + j) / 10 else 7;
     bias := fun l j =>
       if ((l =? 0) && (j <? 4))%nat then INR j - 1 else 7 |}.

Definition padded : GaussianPolicy :=
  {| _squash := true;
     _regularization_coeff := 1 / 1000;
     input_shapes := [3%nat];
     output_shape := 2;
     hidden_layer_sizes := [];
     activation := relu;
     output_activation := linear;
     name := None;
     weights := padded_w |}.

Definition first_rows : list Tensor := [[[0; 1; 2]; [1; 0; -1]]].

Definition last_rows : list Tensor := [[[3; 3; 3]; [-2; 0; 5]]].

Definition first_candidates : Tensor := [[0; 0]; [1 / 2; -1 / 2]].

Definition last_candidates : Tensor := [[9 / 10; 0]; [0; -9 / 10]].

Definition first_log_pis : list (list (option R)) :=
  match log_pis Scenario.policy first_rows first_candidates with
  | Ok l => l
  | ShapeMismatch => []
  end.

Definition last_log_pis : list (list (option R)) :=
  match log_pis Scenario.policy last_rows last_candidates with
  | Ok l => l
  | ShapeMismatch => []
  end.

(** A candidate batch whose second row touches the boundary of the range
    of the squash. *)
Definition boundary_candidates : Tensor :=
  [[0; 0]; [1; 0]; [9 / 10; 0]; [0; -9 / 10]].

End Variants.

(** A policy whose shift is 50: one action dimension, one condition
    feature, no hidden layer, all kernels zero, the bias of the shift unit
    50 and the bias of the log-scale unit 0. *)
Module Saturated.

Definition w : Weights :=
  {| kernel := fun _ _ _ => 0;
     bias := fun _ j => if (j =? 0)%nat then 50 else 0 |}.

Definition policy : GaussianPolicy :=
  {| _squash := true;
     _regularization_coeff := 1 / 1000;
     input_shapes := [1%nat];
     output_shape := 1;
     hidden_layer_sizes := [];
     activation := relu;
     output_activation := linear;
     name := None;
     weights := w |}.

Definition conditions : list Tensor := [[[0]]].

Definition generator : Generator :=
  {| stream := fun _ => 0; position := 0 |}.

End Saturated.

(** A policy with all variables zero, and a generator whose draws are
    0, 1, 2, ... *)
Module Repeated.

Definition w : Weights :=
  {| kernel := fun _ _ _ => 0; bias := fun _ _ => 0 |}.

Definition policy : GaussianPolicy :=
  {| _squash := true;
     _regularization_coeff := 1 / 1000;
     input_shapes := [1%nat];
     output_shape := 1;
     hidden_layer_sizes := [];
     activation := relu;
     output_activation := linear;
     name := None;
     weights := w |}.

Definition conditions : list Tensor := [[[0]]].

Definition generator : Generator :=
  {| stream := fun n => INR n; position := 0 |}.

End Repeated.

(* ================================================================= *)
(** ** Facts on the numeric primitives *)

Section NumericFacts.

Lemma ln_2_lt_1 : ln 2 < 1.
Proof.
  apply Rlt_le_trans with (ln (exp 1)); [|rewrite ln_exp; lra].
  apply ln_increasing; [lra|].
  pose proof (exp_ineq1 1). lra.
Qed.

Lemma exp_neg_inv (x : R) : exp (- x) * exp x = 1.
Proof. rewrite <- exp_plus. replace (- x + x) with 0 by ring. apply exp_0. Qed.

Lemma tanh_exp (x : R) :
  tanh x = (exp x - exp (- x)) / (exp x + exp (- x)).
Proof.
  unfold tanh, sinh, cosh.
  pose proof (exp_pos x). pose proof (exp_pos (- x)).
  field. lra.
Qed.

Lemma tanh_bounds (x : R) : -1 < tanh x < 1.
Proof.
  rewrite tanh_exp.
  pose proof (exp_pos x) as Hp. pose proof (exp_pos (- x)) as Hn.
  assert (Hs : 0 < exp x + exp (- x)) by lra.
  split.
  - apply Rmult_lt_reg_r with (exp x + exp (- x)); [exact Hs|].
    unfold Rdiv. rewrite Rmult_assoc, Rinv_l by lra. lra.
  - apply Rmult_lt_reg_r with (exp x + exp (- x)); [exact Hs|].
    unfold Rdiv. rewrite Rmult_assoc, Rinv_l by lra. lra.
Qed.

Lemma softplus_pos (x : R) : 0 < softplus x.
Proof.
  unfold softplus. rewrite <- ln_1.
  apply ln_increasing; [lra|]. pose proof (exp_pos x). lra.
Qed.

Lemma softplus_shift (x : R) : softplus x = x + softplus (- x).
Proof.
  unfold softplus.
  rewrite <- (ln_exp x) at 2.
  pose proof (exp_pos x) as Hp. pose proof (exp_pos (- x)) as Hn.
  rewrite <- ln_mult by lra.
  f_equal. rewrite Rmult_plus_distr_l, Rmult_1_r.
  rewrite (Rmult_comm (exp x)), exp_neg_inv. ring.
Qed.

Lemma softplus_nonpos_le (x : R) : x <= 0 -> softplus x <= ln 2.
Proof.
  intros Hx. unfold softplus.
  assert (He : exp x <= 1).
  { rewrite <- exp_0. destruct Hx as [Hx| ->]; [left; now apply exp_increasing|right; reflexivity]. }
  pose proof (exp_pos x).
  destruct He as [He|He].
  - left. apply ln_increasing; lra.
  - right. rewrite He. replace (1 + 1) with 2 by ring. reflexivity.
Qed.

Lemma one_minus_tanh_sqr (x : R) :
  1 - tanh x ^ 2 = 4 * exp (-2 * x) * / ((1 + exp (-2 * x)) ^ 2).
Proof.
  rewrite tanh_exp.
  replace (-2 * x) with (- x + - x) by ring. rewrite exp_plus.
  pose proof (exp_pos x) as Hp. pose proof (exp_pos (- x)) as Hn.
  pose proof (exp_neg_inv x) as Hi.
  assert (Hx : exp x = / exp (- x)).
  { apply Rmult_eq_reg_l with (exp (- x)); [|lra]. rewrite Rinv_r by lra. exact Hi. }
  rewrite Hx. field.
  repeat split; try lra; nra.
Qed.

Lemma atanh_tanh (x : R) : atanh (tanh x) = x.
Proof.
  unfold atanh. rewrite tanh_exp.
  pose proof (exp_pos x) as Hp. pose proof (exp_pos (- x)) as Hn.
  replace ((1 + (exp x - exp (- x)) / (exp x + exp (- x))) /
           (1 - (exp x - exp (- x)) / (exp x + exp (- x))))
    with (exp x * / exp (- x)) by (field; lra).
  rewrite ln_mult, ln_Rinv, !ln_exp; try lra.
  - apply Rinv_0_lt_compat; lra.
Qed.

End NumericFacts.

(* ================================================================= *)
(** ** The squash bijector's log-determinant *)

Section SquashJacobian.

Lemma squash_fldj_even (x : R) :
  SquashBijector_forward_log_det_jacobian (- x) =
  SquashBijector_forward_log_det_jacobian x.
Proof.
  unfold SquashBijector_forward_log_det_jacobian.
  replace (-2 * - x) with (2 * x) by ring.
  rewrite (softplus_shift (2 * x)).
  replace (- (2 * x)) with (-2 * x) by ring. ring.
Qed.

Lemma squash_fldj_naive (x : R) :
  SquashBijector_forward_log_det_jacobian x = naive_log_det_jacobian x.
Proof.
  unfold SquashBijector_forward_log_det_jacobian, naive_log_det_jacobian, softplus.
  rewrite one_minus_tanh_sqr.
  pose proof (exp_pos (-2 * x)) as He.
  assert (Hq : 0 < (1 + exp (-2 * x)) ^ 2) by (apply pow_lt; lra).
  rewrite ln_mult; [|lra|now apply Rinv_0_lt_compat].
  rewrite ln_mult by lra.
  rewrite ln_Rinv by exact Hq.
  rewrite ln_exp.
  replace 4 with (2 * 2) by ring. rewrite ln_mult by lra.
  replace ((1 + exp (-2 * x)) ^ 2)
    with ((1 + exp (-2 * x)) * (1 + exp (-2 * x))) by ring.
  rewrite ln_mult by lra. ring.
Qed.

Lemma squash_fldj_bounds_nonneg (x : R) :
  0 <= x ->
  -2 * x <= SquashBijector_forward_log_det_jacobian x < 2 * ln 2 - 2 * x.
Proof.
  intros Hx. unfold SquashBijector_forward_log_det_jacobian.
  pose proof (softplus_pos (-2 * x)).
  pose proof (softplus_nonpos_le (-2 * x)).
  split; lra.
Qed.

Lemma squash_fldj_bounds (x : R) :
  -2 * Rabs x <= SquashBijector_forward_log_det_jacobian x < 2 * ln 2 - 2 * Rabs x.
Proof.
  unfold Rabs. destruct (Rcase_abs x) as [Hn|Hp].
  - rewrite <- squash_fldj_even. apply squash_fldj_bounds_nonneg. lra.
  - apply squash_fldj_bounds_nonneg. lra.
Qed.

End SquashJacobian.

(* ================================================================= *)
(** ** Facts on lists and tensors *)

Section TensorFacts.

Context {X Y Z : Type}.

Lemma map2_length (f : X -> Y -> Z) (l : list X) (l' : list Y) :
  length (map2 f l l') = Nat.min (length l) (length l').
Proof. unfold map2. now rewrite length_map, length_combine. Qed.

Lemma map2_length_same (f : X -> Y -> Z) (l : list X) (l' : list Y) (n : nat) :
  length l = n -> length l' = n -> length (map2 f l l') = n.
Proof. intros <- H. rewrite map2_length, H. apply Nat.min_id. Qed.

Lemma nth_map2 (f : X -> Y -> Z) (l : list X) (l' : list Y) (i : nat) dx dy dz :
  (i < length l)%nat -> (i < length l')%nat ->
  nth i (map2 f l l') dz = f (nth i l dx) (nth i l' dy).
Proof.
  revert l' i. induction l as [|x l IH]; intros [|y l'] [|i] Hl Hl';
    simpl in *; try lia; [reflexivity|].
  apply IH; lia.
Qed.

Lemma Forall_map2 (P : Z -> Prop) (f : X -> Y -> Z) (l : list X) (l' : list Y) :
  (forall x y, P (f x y)) -> Forall P (map2 f l l').
Proof.
  intros H. unfold map2. apply Forall_forall. intros z Hz.
  apply in_map_iff in Hz. destruct Hz as [[x y] [<- _]]. apply H.
Qed.

End TensorFacts.

Section ShapeFacts.

Lemma has_shape_spec (n d : nat) (t : Tensor) :
  has_shape n d t = true <-> length t = n /\ Forall (fun row => length row = d) t.
Proof.
  unfold has_shape. rewrite andb_true_iff, Nat.eqb_eq, forallb_forall, Forall_forall.
  split; intros [H1 H2]; split; auto; intros r Hr.
  - apply Nat.eqb_eq. auto.
  - apply Nat.eqb_eq. auto.
Qed.

Lemma tf_concat_last_length (n : nat) (ts : list Tensor) :
  Forall (fun t => length t = n) ts -> length (tf_concat_last n ts) = n.
Proof.
  induction 1 as [|t ts Ht _ IH]; simpl.
  - apply repeat_length.
  - apply map2_length_same; assumption.
Qed.

Lemma Dense_length units act k b x : length (Dense units act k b x) = units.
Proof. unfold Dense. now rewrite length_map, length_seq. Qed.

Lemma tf_split2_length (v : Vec) (A : nat) :
  length v = (A * 2)%nat ->
  length (fst (tf_split2 v)) = A /\ length (snd (tf_split2 v)) = A.
Proof.
  intros H. unfold tf_split2; cbn [fst snd].
  rewrite H, Nat.div_mul by discriminate.
  rewrite length_firstn, length_skipn. lia.
Qed.

Lemma reduce_sum_bounds (lo hi : R) (v : Vec) :
  Forall (fun x => lo <= x <= hi) v ->
  INR (length v) * lo <= reduce_sum v <= INR (length v) * hi.
Proof.
  induction 1 as [|x v Hx _ IH].
  - simpl. lra.
  - change (length (x :: v)) with (S (length v)). rewrite S_INR.
    simpl reduce_sum. lra.
Qed.

End ShapeFacts.

(* ================================================================= *)
(** ** The conditioner network *)

Section Conditioner.

Variable p : GaussianPolicy.

Lemma network_out_length (row : Vec) :
  length (network_out p row) = (output_shape p * 2)%nat.
Proof. apply Dense_length. Qed.

Lemma shift_length (row : Vec) :
  length (fst (shift_and_log_scale_diag p row)) = output_shape p.
Proof.
  unfold shift_and_log_scale_diag; simpl.
  apply (tf_split2_length _ _ (network_out_length row)).
Qed.

Lemma log_scale_diag_length (row : Vec) :
  length (snd (shift_and_log_scale_diag p row)) = output_shape p.
Proof.
  unfold shift_and_log_scale_diag; simpl. rewrite length_map.
  apply (tf_split2_length _ _ (network_out_length row)).
Qed.

Lemma clip_by_value_range (t lo hi : R) :
  lo <= hi -> lo <= clip_by_value t lo hi <= hi.
Proof.
  intros H. unfold clip_by_value. split.
  - apply Rmax_r.
  - apply Rmax_lub; [apply Rmin_r|exact H].
Qed.

Lemma log_scale_diag_clipped (row : Vec) :
  Forall (fun l => -20 <= l <= 2) (snd (shift_and_log_scale_diag p row)).
Proof.
  unfold shift_and_log_scale_diag; simpl.
  apply Forall_forall. intros l Hl. apply in_map_iff in Hl.
  destruct Hl as [t [<- _]]. apply clip_by_value_range. lra.
Qed.

Lemma scale_diag_range (row : Vec) :
  Forall (fun d => exp (-20) <= d <= exp 2)
         (map exp (snd (shift_and_log_scale_diag p row))).
Proof.
  apply Forall_forall. intros d Hd. apply in_map_iff in Hd.
  destruct Hd as [l [<- Hl]].
  pose proof (log_scale_diag_clipped row) as Hc.
  rewrite Forall_forall in Hc. specialize (Hc l Hl).
  split.
  - destruct (proj1 Hc) as [Hlt|Heq]; [left; now apply exp_increasing|rewrite Heq; right; reflexivity].
  - destruct (proj2 Hc) as [Hlt|Heq]; [left; now apply exp_increasing|rewrite Heq; right; reflexivity].
Qed.

End Conditioner.

(** C4: whatever the conditioner network puts out, every entry of the
    log-scale that the sampling and the scoring path receive lies in
    [-20, 2]; the clip itself sends every real into that range. *)
Theorem log_scale_diag_within_clip_range :
  (forall t : R, -20 <= clip_by_value t (fst SCALE_DIAG_MIN_MAX) (snd SCALE_DIAG_MIN_MAX) <= 2) /\
  (forall (p : GaussianPolicy) (row : Vec),
     Forall (fun l => -20 <= l <= 2) (snd (shift_and_log_scale_diag p row))).
Proof.
  split.
  - intros t. simpl. apply clip_by_value_range. lra.
  - exact log_scale_diag_clipped.
Qed.

(* ================================================================= *)
(** ** The affine and the squash bijector *)

Section BijectorFacts.

Lemma nonzero_exp (ls : Vec) : forallb nonzero (map exp ls) = true.
Proof.
  apply forallb_forall. intros d Hd. apply in_map_iff in Hd.
  destruct Hd as [l [<- _]]. unfold nonzero.
  destruct (Req_dec_T (exp l) 0) as [H0|_]; [|reflexivity].
  pose proof (exp_pos l). lra.
Qed.

Lemma nonzero_spec (d : Vec) : forallb nonzero d = true -> Forall (fun x => x <> 0) d.
Proof.
  rewrite forallb_forall, Forall_forall. intros H x Hx. specialize (H x Hx).
  unfold nonzero in H. now destruct (Req_dec_T x 0).
Qed.

Lemma log_abs_det_exp (ls : Vec) :
  reduce_sum (map (fun d => ln (Rabs d)) (map exp ls)) = reduce_sum ls.
Proof.
  induction ls as [|l ls IH]; simpl; [reflexivity|].
  rewrite IH, Rabs_pos_eq by (left; apply exp_pos). now rewrite ln_exp.
Qed.

Lemma affine_inverse_forward (d s z : Vec) :
  length d = length z -> length s = length z ->
  Forall (fun x => x <> 0) d ->
  map2 Rdiv (map2 Rminus (map2 Rplus (map2 Rmult d z) s) s) d = z.
Proof.
  revert d s. induction z as [|z0 z IH]; intros [|d0 d] [|s0 s] Hd Hs Hnz;
    simpl in *; try discriminate; [reflexivity|].
  inversion Hnz; subst. unfold map2 in *. simpl. f_equal.
  - field. assumption.
  - apply IH; auto.
Qed.

Lemma affine_forward_inverse (d s y : Vec) :
  length d = length y -> length s = length y ->
  Forall (fun x => x <> 0) d ->
  map2 Rplus (map2 Rmult d (map2 Rdiv (map2 Rminus y s) d)) s = y.
Proof.
  revert d s. induction y as [|y0 y IH]; intros [|d0 d] [|s0 s] Hd Hs Hnz;
    simpl in *; try discriminate; [reflexivity|].
  inversion Hnz; subst. unfold map2 in *. simpl. f_equal.
  - field. assumption.
  - apply IH; auto.
Qed.

Lemma Affine_inverse_exp (s ls y : Vec) :
  inverse (Affine s (map exp ls)) y
  = Some (map2 Rdiv (map2 Rminus y s) (map exp ls)).
Proof. simpl. now rewrite nonzero_exp. Qed.

Lemma Affine_fldj_exp (s ls x : Vec) :
  forward_log_det_jacobian (Affine s (map exp ls)) x = Some (reduce_sum ls).
Proof. simpl. now rewrite nonzero_exp, log_abs_det_exp. Qed.

Lemma Affine_roundtrip_exp (s ls z : Vec) :
  length s = length z -> length ls = length z ->
  inverse (Affine s (map exp ls)) (forward (Affine s (map exp ls)) z) = Some z.
Proof.
  intros Hs Hl. rewrite Affine_inverse_exp. simpl. apply f_equal.
  apply affine_inverse_forward; [now rewrite length_map|assumption|].
  apply nonzero_spec, nonzero_exp.
Qed.

Lemma in_open_unit_spec (y : R) : in_open_unit y = true <-> -1 < y < 1.
Proof.
  unfold in_open_unit.
  destruct (Rlt_dec (-1) y), (Rlt_dec y 1); split; intros H;
    try discriminate; try reflexivity; try tauto; lra.
Qed.

Lemma tanh_atanh (y : R) : -1 < y < 1 -> tanh (atanh y) = y.
Proof.
  intros Hy. rewrite tanh_exp. unfold atanh.
  assert (Hq : 0 < (1 + y) / (1 - y)).
  { apply Rdiv_lt_0_compat; lra. }
  set (u := exp (/ 2 * ln ((1 + y) / (1 - y)))).
  assert (Hu : 0 < u) by apply exp_pos.
  assert (Huu : u * u = (1 + y) / (1 - y)).
  { unfold u. rewrite <- exp_plus.
    replace (/ 2 * ln ((1 + y) / (1 - y)) + / 2 * ln ((1 + y) / (1 - y)))
      with (ln ((1 + y) / (1 - y))) by field.
    now apply exp_ln. }
  replace (exp (- (/ 2 * ln ((1 + y) / (1 - y))))) with (/ u)
    by (unfold u; now rewrite exp_Ropp).
  replace ((u - / u) / (u + / u)) with ((u * u - 1) / (u * u + 1)).
  - rewrite Huu. field. lra.
  - field. split; nra.
Qed.

(** The inverse log-det-Jacobian of the squash bijector, as inherited, is
    the textbook [- log (1 - y^2)]. *)
Lemma squash_ildj_closed_form (y : R) :
  -1 < y < 1 ->
  - SquashBijector_forward_log_det_jacobian (atanh y) = - ln (1 - y ^ 2).
Proof.
  intros Hy. rewrite squash_fldj_naive. unfold naive_log_det_jacobian.
  now rewrite tanh_atanh.
Qed.

End BijectorFacts.

(** C10: the diagonal scale the affine bijector receives in either path is
    the exponential of the clipped log-scale; it lies in [exp(-20), exp 2]
    and is strictly positive, so the bijector's inverse is defined at every
    point, undoes the forward map on events of the action dimension, and its
    log-determinant is the finite sum of the log-scales, between [-20 A]
    and [2 A]. *)
Theorem affine_scale_positive_and_invertible (p : GaussianPolicy) (row : Vec) :
  let shift := fst (shift_and_log_scale_diag p row) in
  let log_scale_diag := snd (shift_and_log_scale_diag p row) in
  let bijector := Affine shift (map exp log_scale_diag) in
  Forall (fun d => exp (-20) <= d <= exp 2 /\ 0 < d) (map exp log_scale_diag) /\
  (forall y, exists x, inverse bijector y = Some x) /\
  (forall z, length z = output_shape p ->
             inverse bijector (forward bijector z) = Some z) /\
  (forall y, length y = output_shape p ->
             exists x, inverse bijector y = Some x /\ forward bijector x = y) /\
  (forall x, forward_log_det_jacobian bijector x = Some (reduce_sum log_scale_diag)) /\
  -20 * INR (output_shape p) <= reduce_sum log_scale_diag <= 2 * INR (output_shape p).
Proof.
  intros shift log_scale_diag bijector.
  pose proof (shift_length p row) as Hs.
  pose proof (log_scale_diag_length p row) as Hl.
  fold shift in Hs. fold log_scale_diag in Hl.
  repeat split.
  - pose proof (scale_diag_range p row) as Hr. fold log_scale_diag in Hr.
    eapply Forall_impl; [|exact Hr]. intros d Hd. split; [exact Hd|].
    pose proof (exp_pos (-20)). lra.
  - intros y. eexists. apply Affine_inverse_exp.
  - intros z Hz. apply Affine_roundtrip_exp; congruence.
  - intros y Hy. eexists. split; [apply Affine_inverse_exp|].
    simpl. apply affine_forward_inverse;
      [rewrite length_map; congruence|congruence|].
    apply nonzero_spec, nonzero_exp.
  - intros x. apply Affine_fldj_exp.
  - pose proof (reduce_sum_bounds (-20) 2 _ (log_scale_diag_clipped p row)) as Hb.
    fold log_scale_diag in Hb. rewrite Hl in Hb. lra.
  - pose proof (reduce_sum_bounds (-20) 2 _ (log_scale_diag_clipped p row)) as Hb.
    fold log_scale_diag in Hb. rewrite Hl in Hb. lra.
Qed.

(* ================================================================= *)
(** ** The sampling path *)

Section Indexing.

Context {X Y : Type}.

Lemma nth_map_lt (f : X -> Y) (l : list X) (i : nat) (dx : X) (dy : Y) :
  (i < length l)%nat -> nth i (map f l) dy = f (nth i l dx).
Proof.
  intros Hi. rewrite (nth_indep _ dy (f dx)) by now rewrite length_map.
  apply map_nth.
Qed.

Lemma nth_combine_lt (l : list X) (l' : list Y) (i : nat) (d : X * Y) dx dy :
  length l = length l' -> (i < length l)%nat ->
  nth i (combine l l') d = (nth i l dx, nth i l' dy).
Proof.
  intros Hl Hi. rewrite (nth_indep _ d (dx, dy)).
  - now apply combine_nth.
  - rewrite length_combine. lia.
Qed.

End Indexing.

Section SamplingPath.

Variable p : GaussianPolicy.

Lemma tf_concat_last_nth (n : nat) (ts : list Tensor) (i : nat) :
  Forall (fun t => length t = n) ts -> (i < n)%nat ->
  nth i (tf_concat_last n ts) [] = concat (map (fun t => nth i t []) ts).
Proof.
  intros Hts Hi. induction Hts as [|t ts Ht Hts IH]; simpl.
  - now apply nth_repeat_lt.
  - rewrite (nth_map2 _ _ _ _ [] []);
      [now rewrite IH|lia|rewrite tf_concat_last_length; [lia|assumption]].
Qed.

Lemma conditions_layer_rows (c : list Tensor) (conditions : Tensor) :
  conditions_layer p c = Ok conditions ->
  length conditions = batch_of c /\
  forall i, (i < batch_of c)%nat ->
            nth i conditions [] = concat (map (fun t => nth i t []) c).
Proof.
  unfold conditions_layer. destruct c as [|t0 c0]; [discriminate|].
  set (c := t0 :: c0).
  destruct (_ && _) eqn:Hchk; [|discriminate].
  intros H. injection H as <-.
  apply andb_true_iff in Hchk. destruct Hchk as [Hlen Hall].
  apply Nat.eqb_eq in Hlen. rewrite forallb_forall in Hall.
  assert (Hrows : Forall (fun t => length t = batch_of c) c).
  { apply Forall_forall. intros t Ht.
    destruct (In_nth _ _ [] Ht) as [k [Hk Hnth]].
    assert (Hin : In (nth k (input_shapes p) 0%nat, t)
                     (combine (input_shapes p) c)).
    { rewrite <- Hnth, <- (combine_nth _ _ _ _ _ (eq_sym Hlen)).
      apply nth_In. rewrite length_combine. lia. }
    specialize (Hall _ Hin). simpl in Hall.
    now apply has_shape_spec in Hall. }
  split.
  - exact (tf_concat_last_length (batch_of c) c Hrows).
  - intros i Hi. exact (tf_concat_last_nth (batch_of c) c i Hrows Hi).
Qed.

Lemma sample_length (n : nat) (g : Generator) :
  length (fst (MultivariateNormalDiag_sample (base_distribution p) n g)) = n.
Proof. simpl. now rewrite length_map, length_seq. Qed.

Lemma sample_row (n : nat) (g : Generator) (i : nat) :
  (i < n)%nat ->
  let z := nth i (fst (MultivariateNormalDiag_sample (base_distribution p) n g)) [] in
  length z = output_shape p /\
  forall j, (j < output_shape p)%nat ->
            nth j z 0 = stream g (position g + i * output_shape p + j)%nat.
Proof.
  intros Hi. simpl.
  rewrite (nth_map_lt _ _ _ 0%nat) by now rewrite length_seq.
  rewrite seq_nth by assumption. simpl.
  unfold tf_zeros, tf_ones. rewrite repeat_length.
  split.
  - apply map2_length_same; [|apply repeat_length].
    apply map2_length_same; [apply repeat_length|].
    now rewrite length_map, length_seq.
  - intros j Hj.
    rewrite (nth_map2 _ _ _ _ 0 0);
      [|rewrite map2_length, repeat_length, length_map, length_seq; lia
       |now rewrite repeat_length].
    rewrite (nth_map2 _ _ _ _ 1 0);
      [|now rewrite repeat_length|now rewrite length_map, length_seq].
    rewrite nth_repeat, (nth_repeat_lt _ _ Hj).
    rewrite (nth_map_lt _ _ _ 0%nat) by now rewrite length_seq.
    rewrite seq_nth by assumption. simpl. ring.
Qed.

Lemma sample_generator (n : nat) (g : Generator) :
  let g' := snd (MultivariateNormalDiag_sample (base_distribution p) n g) in
  stream g' = stream g /\ position g' = (position g + n * output_shape p)%nat.
Proof.
  simpl. unfold tf_zeros. now rewrite repeat_length.
Qed.

Lemma raw_actions_ok (c : list Tensor) (g : Generator) (conditions : Tensor) :
  conditions_layer p c = Ok conditions ->
  raw_actions p c g =
  (Ok (map raw_actions_fn
           (combine (map (shift_and_log_scale_diag p) conditions)
                    (fst (MultivariateNormalDiag_sample (base_distribution p)
                                                        (length conditions) g)))),
   snd (MultivariateNormalDiag_sample (base_distribution p) (length conditions) g)).
Proof. intros H. unfold raw_actions. now rewrite H. Qed.

Lemma raw_actions_rows (c : list Tensor) (g : Generator) (conditions : Tensor) :
  conditions_layer p c = Ok conditions ->
  exists raw g',
    raw_actions p c g = (Ok raw, g') /\
    length raw = batch_of c /\
    stream g' = stream g /\
    position g' = (position g + batch_of c * output_shape p)%nat /\
    forall i, (i < batch_of c)%nat ->
      let row := concat (map (fun t => nth i t []) c) in
      let shift := fst (shift_and_log_scale_diag p row) in
      let log_scale_diag := snd (shift_and_log_scale_diag p row) in
      length (nth i raw []) = output_shape p /\
      forall j, (j < output_shape p)%nat ->
        nth j (nth i raw []) 0 =
        nth j shift 0 + exp (nth j log_scale_diag 0)
                        * stream g (position g + i * output_shape p + j)%nat.
Proof.
  intros Hc. destruct (conditions_layer_rows _ _ Hc) as [Hn Hrow].
  eexists. eexists. split; [apply (raw_actions_ok _ g _ Hc)|].
  pose proof (sample_generator (length conditions) g) as [Hst Hpos].
  rewrite Hn in *.
  assert (Hlen : length (combine (map (shift_and_log_scale_diag p) conditions)
                   (fst (MultivariateNormalDiag_sample (base_distribution p)
                                                       (batch_of c) g)))
                 = batch_of c).
  { rewrite length_combine, length_map, sample_length, Hn. apply Nat.min_id. }
  split; [now rewrite length_map|].
  split; [exact Hst|]. split; [exact Hpos|].
  intros i Hi row shift log_scale_diag.
  rewrite (nth_map_lt _ _ _ (([], []), [])) by now rewrite Hlen.
  rewrite (nth_combine_lt _ _ _ _ ([], []) [])
    by (rewrite length_map, ?sample_length; lia).
  rewrite (nth_map_lt _ _ _ []) by lia.
  rewrite (Hrow i Hi). fold row.
  destruct (sample_row (batch_of c) g i Hi) as [Hzl Hz].
  set (z := nth i _ []) in *.
  unfold raw_actions_fn.
  destruct (shift_and_log_scale_diag p row) as [s ls] eqn:Hsl.
  pose proof (shift_length p row) as Hs.
  pose proof (log_scale_diag_length p row) as Hl.
  rewrite Hsl in Hs, Hl. simpl in Hs, Hl. subst shift log_scale_diag.
  simpl fst; simpl snd. simpl forward.
  split.
  - apply map2_length_same; [|assumption].
    apply map2_length_same; [now rewrite length_map|assumption].
  - intros j Hj.
    rewrite (nth_map2 _ _ _ _ 0 0);
      [|rewrite map2_length, length_map; lia|lia].
    rewrite (nth_map2 _ _ _ _ (exp 0) 0);
      [|rewrite length_map; lia|lia].
    rewrite map_nth, (Hz j Hj). ring.
Qed.

Lemma actions_of_raw (c : list Tensor) (g : Generator) :
  actions p c g =
  (result_map (map (forward (squash_bijector p))) (fst (raw_actions p c g)),
   snd (raw_actions p c g)).
Proof.
  unfold actions, actions_model. now destruct (raw_actions p c g).
Qed.

Lemma actions_rows (c : list Tensor) (g : Generator) (conditions : Tensor) :
  conditions_layer p c = Ok conditions ->
  exists acts g',
    actions p c g = (Ok acts, g') /\
    length acts = batch_of c /\
    stream g' = stream g /\
    position g' = (position g + batch_of c * output_shape p)%nat /\
    forall i, (i < batch_of c)%nat ->
      let row := concat (map (fun t => nth i t []) c) in
      let shift := fst (shift_and_log_scale_diag p row) in
      let log_scale_diag := snd (shift_and_log_scale_diag p row) in
      length (nth i acts []) = output_shape p /\
      forall j, (j < output_shape p)%nat ->
        let raw_action :=
          nth j shift 0 + exp (nth j log_scale_diag 0)
                          * stream g (position g + i * output_shape p + j)%nat in
        nth j (nth i acts []) 0 = if _squash p then tanh raw_action else raw_action.
Proof.
  intros Hc.
  destruct (raw_actions_rows c g _ Hc) as (raw & g' & Hraw & Hlen & Hst & Hpos & Hrows).
  exists (map (forward (squash_bijector p)) raw), g'.
  split; [rewrite actions_of_raw, Hraw; reflexivity|].
  split; [now rewrite length_map|].
  split; [exact Hst|]. split; [exact Hpos|].
  intros i Hi row shift log_scale_diag.
  destruct (Hrows i Hi) as [Hrl Hrj].
  rewrite (nth_map_lt _ _ _ []) by lia.
  unfold squash_bijector. destruct (_squash p); simpl forward.
  - split; [now rewrite length_map|].
    intros j Hj. cbv zeta.
    rewrite (nth_map_lt _ _ _ 0) by lia. now rewrite (Hrj j Hj).
  - split; [exact Hrl|]. intros j Hj. cbv zeta. exact (Hrj j Hj).
Qed.

End SamplingPath.

(** C3: on condition inputs of the declared shapes the sampling path
    returns one action row per batch element; entry [j] of row [i] is
    [squash (shift + exp log_scale_diag * latent)], where [shift] and
    [log_scale_diag] are the conditioner's outputs on row [i] of the
    concatenated inputs and [latent] is draw number [i * A + j] read from
    the generator, which advances by [batch * A] draws.  The affine step
    comes first; the squash is [tanh], or nothing when squashing is off. *)
Theorem sampling_path_affine_then_squash
    (p : GaussianPolicy) (c : list Tensor) (g : Generator) (conditions : Tensor) :
  conditions_layer p c = Ok conditions ->
  exists acts g',
    actions p c g = (Ok acts, g') /\
    length acts = length conditions /\
    stream g' = stream g /\
    position g' = (position g + length conditions * output_shape p)%nat /\
    forall i j, (i < length conditions)%nat -> (j < output_shape p)%nat ->
      let shift := fst (shift_and_log_scale_diag p (nth i conditions [])) in
      let log_scale_diag := snd (shift_and_log_scale_diag p (nth i conditions [])) in
      let latent := stream g (position g + i * output_shape p + j)%nat in
      let raw_action := nth j shift 0 + exp (nth j log_scale_diag 0) * latent in
      nth i conditions [] = concat (map (fun t => nth i t []) c) /\
      nth j (nth i acts []) 0 = if _squash p then tanh raw_action else raw_action.
Proof.
  intros Hc.
  destruct (conditions_layer_rows p _ _ Hc) as [Hn Hrow].
  destruct (actions_rows p c g _ Hc) as (acts & g' & Ha & Hlen & Hst & Hpos & Hrows).
  exists acts, g'. rewrite Hn.
  repeat (split; [assumption|]).
  intros i j Hi Hj. cbv zeta. rewrite (Hrow i Hi).
  split; [reflexivity|].
  destruct (Hrows i Hi) as [_ Hij]. exact (Hij j Hj).
Qed.

Section SamplingProperties.

Variable p : GaussianPolicy.


End SamplingProperties.

(** C7: with [squash=false] the bijector applied after the affine step is
    [Identity], whose forward map returns its argument and whose log-det
    Jacobian is zero; [actions] then returns the [raw_actions] tensor
    itself, and each entry is [shift + exp log_scale_diag * latent]. *)
Theorem identity_squash_returns_raw_actions (p : GaussianPolicy) :
  _squash p = false ->
  squash_bijector p = Identity /\
  (forall x, forward Identity x = x) /\
  (forall x, forward_log_det_jacobian Identity x = Some 0) /\
  (forall c g, actions p c g = raw_actions p c g) /\
  (forall c g conditions,
     conditions_layer p c = Ok conditions ->
     exists acts g',
       actions p c g = (Ok acts, g') /\
       forall i j, (i < length conditions)%nat -> (j < output_shape p)%nat ->
         nth j (nth i acts []) 0 =
         nth j (fst (shift_and_log_scale_diag p (nth i conditions []))) 0
         + exp (nth j (snd (shift_and_log_scale_diag p (nth i conditions []))) 0)
           * stream g (position g + i * output_shape p + j)%nat).
Proof.
  intros Hsq.
  assert (Hid : squash_bijector p = Identity) by (unfold squash_bijector; now rewrite Hsq).
  split; [exact Hid|]. split; [reflexivity|]. split; [reflexivity|]. split.
  - intros c g. rewrite actions_of_raw, Hid.
    destruct (raw_actions p c g) as [[raw|] g']; simpl; [|reflexivity].
    now rewrite map_id.
  - intros c g conditions Hc.
    destruct (conditions_layer_rows p _ _ Hc) as [Hn Hrow].
    destruct (actions_rows p c g _ Hc) as (acts & g' & Ha & _ & _ & _ & Hrows).
    exists acts, g'. split; [exact Ha|].
    intros i j Hi Hj. rewrite Hn in Hi.
    destruct (Hrows i Hi) as [_ Hij].
    rewrite (Hij j Hj), Hsq, (Hrow i Hi). reflexivity.
Qed.

(* ================================================================= *)
(** ** The scoring path *)

Section ScoringPath.

Variable p : GaussianPolicy.

Lemma chain_inverse (sq : Bijector) (s ls y : list R) :
  inverse (Chain [sq; Affine s (map exp ls)]) y
  = x <- inverse sq y ;; Some (map2 Rdiv (map2 Rminus x s) (map exp ls)).
Proof.
  simpl. rewrite nonzero_exp. now destruct (inverse sq y).
Qed.

Lemma squash_bijector_cases : squash_bijector p = SquashBijector \/ squash_bijector p = Identity.
Proof. unfold squash_bijector. destruct (_squash p); auto. Qed.

Lemma squash_bijector_inverse_length (y x : list R) :
  inverse (squash_bijector p) y = Some x -> length x = length y.
Proof.
  destruct squash_bijector_cases as [-> | ->]; simpl.
  - destruct (forallb in_open_unit y); [|discriminate].
    intros H. injection H as <-. apply length_map.
  - intros H. now injection H as <-.
Qed.

Lemma squash_bijector_fldj (x : list R) :
  exists j, forward_log_det_jacobian (squash_bijector p) x = Some j.
Proof.
  destruct squash_bijector_cases as [-> | ->]; simpl; eauto.
Qed.

Lemma chain_fldj (s ls z : list R) :
  forward_log_det_jacobian (Chain [squash_bijector p; Affine s (map exp ls)]) z
  = j <- forward_log_det_jacobian (squash_bijector p)
           (forward (Affine s (map exp ls)) z) ;;
    Some (0 + reduce_sum ls + j).
Proof.
  simpl. rewrite nonzero_exp, log_abs_det_exp. simpl.
  now destruct (forward_log_det_jacobian (squash_bijector p) _).
Qed.

Lemma chain_ildj (s ls y : list R) :
  inverse_log_det_jacobian (Chain [squash_bijector p; Affine s (map exp ls)]) y
  = x <- inverse (squash_bijector p) y ;;
    j <- forward_log_det_jacobian (squash_bijector p) x ;;
    Some (- j + (- reduce_sum ls + 0)).
Proof.
  assert (Hsq : inverse_log_det_jacobian (squash_bijector p) y
                = x <- inverse (squash_bijector p) y ;;
                  j <- forward_log_det_jacobian (squash_bijector p) x ;;
                  Some (- j)).
  { destruct squash_bijector_cases as [-> | ->]; reflexivity. }
  cbn [inverse_log_det_jacobian]. rewrite Hsq.
  destruct (inverse (squash_bijector p) y) as [x|]; [|reflexivity].
  cbn [obind].
  destruct (forward_log_det_jacobian (squash_bijector p) x) as [j|]; [|reflexivity].
  cbn [obind]. rewrite Affine_inverse_exp. cbn [obind].
  rewrite Affine_fldj_exp. reflexivity.
Qed.

(** Change of variables for the policy's chain: the accumulated inverse
    log-det-Jacobian is minus the chain's forward one at the inverse image. *)
Lemma chain_log_prob (d : MultivariateNormalDiag) (s ls y : list R) :
  length s = length y -> length ls = length y ->
  TransformedDistribution_log_prob d
    (Chain [squash_bijector p; Affine s (map exp ls)]) y
  = z <- inverse (Chain [squash_bijector p; Affine s (map exp ls)]) y ;;
    j <- forward_log_det_jacobian
           (Chain [squash_bijector p; Affine s (map exp ls)]) z ;;
    Some (MultivariateNormalDiag_log_prob d z - j).
Proof.
  intros Hs Hl. unfold TransformedDistribution_log_prob.
  rewrite chain_ildj, chain_inverse.
  destruct (inverse (squash_bijector p) y) as [x|] eqn:Hx; [|reflexivity].
  cbn [obind]. rewrite chain_fldj.
  pose proof (squash_bijector_inverse_length _ _ Hx) as Hxl.
  assert (Hfw : forward (Affine s (map exp ls))
                        (map2 Rdiv (map2 Rminus x s) (map exp ls)) = x).
  { simpl. apply affine_forward_inverse;
      [rewrite length_map; congruence|congruence|apply nonzero_spec, nonzero_exp]. }
  rewrite Hfw.
  destruct (forward_log_det_jacobian (squash_bijector p) x) as [j|]; [|reflexivity].
  cbn [obind]. apply f_equal. ring.
Qed.

Lemma log_pis_ok (c : list Tensor) (a conditions : list (list R)) :
  conditions_layer p c = Ok conditions ->
  has_shape (length conditions) (output_shape p) a = true ->
  log_pis p c a =
  Ok (map (log_pis_fn p) (combine (map (shift_and_log_scale_diag p) conditions) a)).
Proof.
  intros Hc Ha. unfold log_pis, log_pis_model. now rewrite Hc, Ha.
Qed.

Lemma log_pis_rows (c : list Tensor) (a conditions : list (list R)) :
  conditions_layer p c = Ok conditions ->
  has_shape (length conditions) (output_shape p) a = true ->
  exists lps,
    log_pis p c a = Ok lps /\
    length lps = length conditions /\
    forall i, (i < length conditions)%nat ->
      let shift := fst (shift_and_log_scale_diag p (nth i conditions [])) in
      let log_scale_diag := snd (shift_and_log_scale_diag p (nth i conditions [])) in
      let chain := Chain [squash_bijector p; Affine shift (map exp log_scale_diag)] in
      nth i lps [] =
      [z <- inverse chain (nth i a []) ;;
       j <- forward_log_det_jacobian chain z ;;
       Some (MultivariateNormalDiag_log_prob (base_distribution p) z - j)].
Proof.
  intros Hc Ha. eexists. split; [apply (log_pis_ok _ _ _ Hc Ha)|].
  apply has_shape_spec in Ha. destruct Ha as [Hal Har].
  assert (Hlen : length (combine (map (shift_and_log_scale_diag p) conditions) a)
                 = length conditions).
  { rewrite length_combine, length_map, Hal. apply Nat.min_id. }
  split; [now rewrite length_map|].
  intros i Hi. cbv zeta.
  rewrite (nth_map_lt _ _ _ (([], []), [])) by now rewrite Hlen.
  rewrite (nth_combine_lt _ _ _ _ ([], []) [])
    by (rewrite length_map; lia).
  rewrite (nth_map_lt _ _ _ []) by lia.
  pose proof (shift_length p (nth i conditions [])) as Hs.
  pose proof (log_scale_diag_length p (nth i conditions [])) as Hl.
  destruct (shift_and_log_scale_diag p (nth i conditions [])) as [s ls].
  cbn [fst snd] in *. unfold log_pis_fn. apply f_equal2; [|reflexivity].
  assert (Hy : length (nth i a []) = output_shape p).
  { rewrite Forall_forall in Har. apply Har, nth_In. lia. }
  apply chain_log_prob; congruence.
Qed.

End ScoringPath.

(** C5: on inputs of the declared shapes [log_pis] returns one row per
    batch element, each row with a single entry: shape [(batch, 1)].  The
    entry is the base distribution's log-density at the inverse image of
    the action under [Chain (Squash, Affine)], minus the chain's
    accumulated forward log-det-Jacobian at that inverse image; it is not
    finite where the inverse image is not. *)
Theorem log_pis_change_of_variables
    (p : GaussianPolicy) (c : list Tensor) (a conditions : list (list R)) :
  conditions_layer p c = Ok conditions ->
  has_shape (length conditions) (output_shape p) a = true ->
  exists lps,
    log_pis p c a = Ok lps /\
    length lps = length conditions /\
    Forall (fun row => length row = 1%nat) lps /\
    forall i, (i < length conditions)%nat ->
      let shift := fst (shift_and_log_scale_diag p (nth i conditions [])) in
      let log_scale_diag := snd (shift_and_log_scale_diag p (nth i conditions [])) in
      let chain := Chain [squash_bijector p; Affine shift (map exp log_scale_diag)] in
      nth i lps [] =
      [z <- inverse chain (nth i a []) ;;
       j <- forward_log_det_jacobian chain z ;;
       Some (MultivariateNormalDiag_log_prob (base_distribution p) z - j)].
Proof.
  intros Hc Ha.
  destruct (log_pis_rows p c a _ Hc Ha) as (lps & Hlp & Hlen & Hrows).
  exists lps. repeat (split; [assumption|]). split; [|exact Hrows].
  apply Forall_nth. intros i d Hi. rewrite (nth_indep _ d []) by assumption.
  rewrite Hlen in Hi. now rewrite (Hrows i Hi).
Qed.

(* ================================================================= *)
(** ** The inert regularization coefficient *)

(** C8: two policies constructed from the same arguments and the same
    initial variables, except for [regularization_coeff], answer every
    public operation alike. *)
Theorem regularization_coeff_is_inert
    (input_shapes : list nat) (output_shape : nat) (hidden_layer_sizes : list nat)
    (squash : bool) (activation output_activation : Activation)
    (name : option String.string) (w : Weights)
    (r1 r2 : R) (p1 p2 : GaussianPolicy) :
  GaussianPolicy_init input_shapes output_shape hidden_layer_sizes squash r1
                      activation output_activation name w = Ok p1 ->
  GaussianPolicy_init input_shapes output_shape hidden_layer_sizes squash r2
                      activation output_activation name w = Ok p2 ->
  (forall c g, actions p1 c g = actions p2 c g) /\
  (forall c a, log_pis p1 c a = log_pis p2 c a) /\
  (forall c g, actions_np p1 c g = actions_np p2 c g) /\
  (forall c a, log_pis_np p1 c a = log_pis_np p2 c a) /\
  trainable_variables p1 = trainable_variables p2 /\
  (forall iteration batch,
     get_diagnostics p1 iteration batch = get_diagnostics p2 iteration batch).
Proof.
  unfold GaussianPolicy_init. destruct input_shapes as [|n ns]; [discriminate|].
  intros H1 H2. injection H1 as <-. injection H2 as <-.
  repeat split.
Qed.

(* ================================================================= *)
(** ** The theorems at the concrete policy *)

Example clip_by_value_above : clip_by_value 100 (-20) 2 = 2.
Proof.
  unfold clip_by_value. rewrite Rmin_right by lra. apply Rmax_left. lra.
Qed.

Example clip_by_value_below : clip_by_value (-50) (-20) 2 = -20.
Proof.
  unfold clip_by_value. rewrite Rmin_left by lra. apply Rmax_right. lra.
Qed.

Example scenario_conditions :
  conditions_layer Scenario.policy Scenario.conditions = Ok Scenario.concatenated.
Proof. reflexivity. Qed.

Example scenario_bad_batch :
  conditions_layer Scenario.policy [[[0; 1; 2]; [1; 0]]] = ShapeMismatch.
Proof. reflexivity. Qed.

Lemma sampling_path_affine_then_squash_witness :
  exists acts g',
    actions Scenario.policy Scenario.conditions Scenario.generator = (Ok acts, g')
    /\ length acts = 4%nat /\ position g' = 8%nat.
Proof.
  destruct (sampling_path_affine_then_squash
              Scenario.policy Scenario.conditions Scenario.generator
              Scenario.concatenated)
    as (acts & g' & Ha & Hl & _ & Hp & _); [reflexivity|].
  exists acts, g'. split; [exact Ha|]. split; [exact Hl|exact Hp].
Defined.

Lemma identity_squash_returns_raw_actions_witness :
  actions Scenario.unsquashed Scenario.conditions Scenario.generator
  = raw_actions Scenario.unsquashed Scenario.conditions Scenario.generator.
Proof.
  destruct (identity_squash_returns_raw_actions Scenario.unsquashed)
    as (_ & _ & _ & H & _); [reflexivity|].
  apply H.
Defined.

Lemma log_pis_change_of_variables_witness :
  exists lps,
    log_pis Scenario.policy Scenario.conditions Scenario.candidates = Ok lps
    /\ length lps = 4%nat
    /\ Forall (fun row => length row = 1%nat) lps.
Proof.
  destruct (log_pis_change_of_variables
              Scenario.policy Scenario.conditions Scenario.candidates
              Scenario.concatenated)
    as (lps & Hl & Hn & Hr & _); [reflexivity|reflexivity|].
  exists lps. split; [exact Hl|]. split; [exact Hn|exact Hr].
Defined.

Lemma regularization_coeff_is_inert_witness :
  actions (Scenario.make true (1 / 1000)) Scenario.conditions Scenario.generator
  = actions (Scenario.make true 5) Scenario.conditions Scenario.generator.
Proof.
  destruct (regularization_coeff_is_inert
              [3%nat] 2%nat [] true relu linear None Scenario.w (1 / 1000) 5
              (Scenario.make true (1 / 1000)) (Scenario.make true 5))
    as (H & _); [reflexivity|reflexivity|].
  apply H.
Defined.

(* ================================================================= *)
(** ** Further properties of the squash bijector *)

Section SquashFurther.

Lemma tanh_zero_inv (x : R) : tanh x = 0 -> x = 0.
Proof.
  rewrite tanh_exp. intros H.
  pose proof (exp_pos x) as Hp. pose proof (exp_pos (- x)) as Hn.
  assert (He : exp x = exp (- x)).
  { apply Rmult_eq_compat_r with (r := exp x + exp (- x)) in H.
    unfold Rdiv in H. rewrite Rmult_assoc, Rinv_l, Rmult_0_l in H by lra. lra. }
  apply exp_inv in He. lra.
Qed.


Lemma in_open_unit_forall (y : list R) :
  forallb in_open_unit y = true <-> Forall (fun a => -1 < a < 1) y.
Proof.
  rewrite forallb_forall, Forall_forall.
  split; intros H a Ha; apply in_open_unit_spec, H, Ha.
Qed.

End SquashFurther.

(* ================================================================= *)
(** ** Further properties of the conditioner network *)

Section ConditionsShape.

Variable p : GaussianPolicy.

Lemma forallb_combine_Forall2 {X Y : Type} (f : X * Y -> bool) (l : list X) (l' : list Y) :
  length l = length l' ->
  (forallb f (combine l l') = true <-> Forall2 (fun a b => f (a, b) = true) l l').
Proof.
  revert l'. induction l as [|a l IH]; intros [|b l'] Hlen; simpl in *;
    try discriminate.
  - split; [constructor|reflexivity].
  - injection Hlen as Hlen. rewrite andb_true_iff, (IH l' Hlen). split.
    + intros [Ha Hl]. now constructor.
    + intros H. inversion H; subst. now split.
Qed.

Lemma conditions_layer_iff (c : list Tensor) (conditions : list (list R)) :
  conditions_layer p c = Ok conditions <->
  c <> [] /\
  Forall2 (fun d t => has_shape (batch_of c) d t = true) (input_shapes p) c /\
  conditions = tf_concat_last (batch_of c) c.
Proof.
  unfold conditions_layer. destruct c as [|t0 c0].
  - split; [discriminate|]. intros [H _]. now contradiction H.
  - set (c := t0 :: c0).
    destruct (length c =? length (input_shapes p))%nat eqn:Hlen.
    + apply Nat.eqb_eq in Hlen. rewrite andb_true_l.
      pose proof (forallb_combine_Forall2
                    (fun dt => has_shape (batch_of c) (fst dt) (snd dt))
                    (input_shapes p) c (eq_sym Hlen)) as Hf.
      cbn [fst snd] in Hf.
      destruct (forallb _ _).
      * split.
        -- intros H. injection H as <-. split; [discriminate|].
           split; [now apply Hf|reflexivity].
        -- intros (_ & _ & ->). reflexivity.
      * split; [discriminate|]. intros (_ & H2 & _).
        apply Hf in H2. discriminate.
    + rewrite andb_false_l. split; [discriminate|]. intros (_ & H2 & _).
      apply Forall2_length in H2. apply Nat.eqb_neq in Hlen. congruence.
Qed.

Lemma concat_rows_width (n : nat) (shapes : list nat) (c : list Tensor) (i : nat) :
  Forall2 (fun d t => has_shape n d t = true) shapes c -> (i < n)%nat ->
  length (concat (map (fun t => nth i t []) c)) = list_sum shapes.
Proof.
  intros H Hi. induction H as [|d t shapes c Hdt _ IH]; simpl; [reflexivity|].
  rewrite length_app, IH. f_equal.
  apply has_shape_spec in Hdt. destruct Hdt as [Hn Hrows].
  rewrite Forall_forall in Hrows. apply Hrows, nth_In. lia.
Qed.

Lemma conditions_width (c : list Tensor) (conditions : list (list R)) :
  conditions_layer p c = Ok conditions ->
  Forall (fun row => length row = list_sum (input_shapes p)) conditions.
Proof.
  intros Hc. destruct (conditions_layer_rows p _ _ Hc) as [Hn Hrow].
  apply conditions_layer_iff in Hc. destruct Hc as (_ & Hsh & _).
  apply Forall_nth. intros i d Hi. rewrite (nth_indep _ d []) by assumption.
  rewrite Hn in Hi. rewrite (Hrow i Hi).
  now apply (concat_rows_width (batch_of c)).
Qed.

End ConditionsShape.

(** X2: the concatenation layer turns condition inputs of the declared
    shapes into one tensor of shape [(batch, n1 + ... + nk)], the [ni] being
    the declared feature widths; row [i] is the concatenation of the
    sources' rows [i], in the order of the sources. *)
Theorem conditions_layer_shape
    (p : GaussianPolicy) (c : list Tensor) (conditions : list (list R)) :
  conditions_layer p c = Ok conditions ->
  has_shape (batch_of c) (list_sum (input_shapes p)) conditions = true /\
  forall i, (i < batch_of c)%nat ->
            nth i conditions [] = concat (map (fun t => nth i t []) c).
Proof.
  intros Hc. destruct (conditions_layer_rows p _ _ Hc) as [Hn Hrow].
  split; [|exact Hrow].
  apply has_shape_spec. split; [exact Hn|]. exact (conditions_width p _ _ Hc).
Qed.

Lemma conditions_layer_shape_witness :
  has_shape 4 3 Scenario.concatenated = true.
Proof.
  apply (conditions_layer_shape Scenario.policy Scenario.conditions Scenario.concatenated).
  reflexivity.
Defined.

(** X1: which half of the final layer is which.  For [j < A], entry [j]
    of [shift] is the output of unit [j] of the final dense layer, and entry
    [j] of [log_scale_diag] is the clipped output of unit [A + j]; both read
    the same hidden features. *)
Theorem conditioner_heads (p : GaussianPolicy) (row : list R) (j : nat) :
  (j < output_shape p)%nat ->
  let L := length (hidden_layer_sizes p) in
  let h := hidden_stack (activation p) (weights p) 0 (hidden_layer_sizes p) row in
  let unit_out u :=
    apply_activation (output_activation p)
      (reduce_sum (map2 (fun i xi => xi * kernel (weights p) L i u) (seq 0 (length h)) h)
       + bias (weights p) L u) in
  nth j (fst (shift_and_log_scale_diag p row)) 0 = unit_out j /\
  nth j (snd (shift_and_log_scale_diag p row)) 0
  = clip_by_value (unit_out (output_shape p + j)%nat) (-20) 2.
Proof.
  intros Hj L h unit_out.
  assert (Hout : forall u, (u < output_shape p * 2)%nat ->
                           nth u (network_out p row) 0 = unit_out u).
  { intros u Hu. unfold network_out, Dense. fold L. fold h.
    rewrite (nth_map_lt _ _ _ 0%nat) by now rewrite length_seq.
    now rewrite seq_nth by assumption. }
  unfold shift_and_log_scale_diag, tf_split2. cbn [fst snd].
  rewrite network_out_length, Nat.div_mul by discriminate.
  split.
  - rewrite nth_firstn. destruct (Nat.ltb_spec j (output_shape p)); [|lia].
    apply Hout. lia.
  - rewrite (nth_map_lt _ _ _ 0) by (rewrite length_skipn, network_out_length; lia).
    rewrite nth_skipn. f_equal. apply Hout. lia.
Qed.

Lemma conditioner_heads_witness :
  nth 1 (snd (shift_and_log_scale_diag Scenario.policy [0; 1; 2])) 0
  = clip_by_value
      (reduce_sum (map2 (fun i xi => xi * kernel Scenario.w 0 i 3)
                        (seq 0 3) [0; 1; 2])
       + bias Scenario.w 0 3) (-20) 2.
Proof.
  apply (conditioner_heads Scenario.policy [0; 1; 2] 1). simpl. lia.
Defined.

(* ================================================================= *)
(** ** The trainable variables *)

Section TrainableVariables.

Variable p : GaussianPolicy.

Lemma stack_variables_length (l in_dim : nat) (sizes : list nat) :
  length (stack_variables p l in_dim sizes) = (2 * (length sizes + 1))%nat.
Proof.
  revert l in_dim. induction sizes as [|u rest IH]; intros l in_dim; simpl.
  - reflexivity.
  - rewrite IH. lia.
Qed.

Lemma stack_variables_layer (l0 in_dim : nat) (sizes : list nat) (l : nat) :
  (l <= length sizes)%nat ->
  firstn 2 (skipn (2 * l) (stack_variables p l0 in_dim sizes))
  = layer_variables p (l0 + l)
      (nth l (in_dim :: sizes) 0%nat)
      (nth l (sizes ++ [(output_shape p * 2)%nat]) 0%nat).
Proof.
  revert l0 in_dim l. induction sizes as [|u rest IH]; intros l0 in_dim l Hl.
  - simpl in Hl. assert (l = 0)%nat by lia. subst l.
    rewrite Nat.add_0_r. reflexivity.
  - destruct l as [|l].
    + rewrite Nat.add_0_r. reflexivity.
    + replace (2 * S l)%nat with (S (S (2 * l))) by lia.
      cbn [stack_variables layer_variables app skipn].
      rewrite IH by (simpl in Hl; lia).
      replace (S l0 + l)%nat with (l0 + S l)%nat by lia. reflexivity.
Qed.

End TrainableVariables.

(** X3: [trainable_variables] lists a kernel and a bias for every dense
    layer, in layer order: [2 * (number of hidden layers + 1)] tensors.  With
    the widths [d0 = n1 + ... + nk], the hidden sizes, and [2 A] for the final
    layer, the kernel of layer [l] has shape [(d_l, d_(l+1))] and its bias has
    [d_(l+1)] entries. *)
Theorem trainable_variables_layout (p : GaussianPolicy) :
  let dims :=
    list_sum (input_shapes p) :: hidden_layer_sizes p ++ [(output_shape p * 2)%nat] in
  length (trainable_variables p) = (2 * (length (hidden_layer_sizes p) + 1))%nat /\
  forall l, (l <= length (hidden_layer_sizes p))%nat ->
    exists k b,
      nth (2 * l) (trainable_variables p) (bias_variable []) = kernel_variable k /\
      nth (2 * l + 1) (trainable_variables p) (kernel_variable []) = bias_variable b /\
      has_shape (nth l dims 0%nat) (nth (S l) dims 0%nat) k = true /\
      length b = nth (S l) dims 0%nat /\
      (forall i j, (i < nth l dims 0)%nat -> (j < nth (S l) dims 0)%nat ->
                   nth j (nth i k []) 0 = kernel (weights p) l i j /\
                   nth j b 0 = bias (weights p) l j).
Proof.
  intros dims. split; [apply stack_variables_length|].
  intros l Hl.
  pose proof (stack_variables_layer p 0 (list_sum (input_shapes p))
                                    (hidden_layer_sizes p) l Hl) as H.
  fold (trainable_variables p) in H. cbn [Nat.add] in H.
  assert (Hin : nth l (list_sum (input_shapes p) :: hidden_layer_sizes p) 0%nat
                = nth l dims 0%nat).
  { unfold dims. rewrite app_comm_cons, app_nth1; [reflexivity|simpl; lia]. }
  rewrite Hin in H. clear Hin.
  change (nth l (hidden_layer_sizes p ++ [(output_shape p * 2)%nat]) 0%nat)
    with (nth (S l) dims 0%nat) in H.
  set (din := nth l dims 0%nat) in *. set (dout := nth (S l) dims 0%nat) in *.
  pose proof (stack_variables_length p 0 (list_sum (input_shapes p))
                                     (hidden_layer_sizes p)) as Hlen.
  fold (trainable_variables p) in Hlen.
  assert (Hk : nth (2 * l) (trainable_variables p) (bias_variable [])
               = nth 0 (firstn 2 (skipn (2 * l) (trainable_variables p))) (bias_variable [])).
  { rewrite nth_firstn. cbn [Nat.ltb Nat.leb]. rewrite nth_skipn. f_equal. lia. }
  assert (Hb : nth (2 * l + 1) (trainable_variables p) (kernel_variable [])
               = nth 1 (firstn 2 (skipn (2 * l) (trainable_variables p))) (kernel_variable [])).
  { rewrite nth_firstn. cbn [Nat.ltb Nat.leb]. rewrite nth_skipn. reflexivity. }
  rewrite H in Hk, Hb. unfold layer_variables in Hk, Hb. cbn [nth] in Hk, Hb.
  eexists. eexists. split; [exact Hk|]. split; [exact Hb|].
  split; [|split].
  - apply has_shape_spec. split; [now rewrite length_map, length_seq|].
    apply Forall_forall. intros r Hr. apply in_map_iff in Hr.
    destruct Hr as [i [<- _]]. now rewrite length_map, length_seq.
  - now rewrite length_map, length_seq.
  - intros i j Hi Hj. split.
    + rewrite (nth_map_lt _ _ _ 0%nat) by now rewrite length_seq.
      rewrite (nth_map_lt _ _ _ 0%nat) by now rewrite length_seq.
      now rewrite !seq_nth by assumption.
    + rewrite (nth_map_lt _ _ _ 0%nat) by now rewrite length_seq.
      now rewrite seq_nth by assumption.
Qed.

Section VariablesDetermineThePolicy.

Variables p1 p2 : GaussianPolicy.

Hypothesis same_squash : _squash p1 = _squash p2.
Hypothesis same_input_shapes : input_shapes p1 = input_shapes p2.
Hypothesis same_output_shape : output_shape p1 = output_shape p2.
Hypothesis same_hidden_layer_sizes : hidden_layer_sizes p1 = hidden_layer_sizes p2.
Hypothesis same_activation : activation p1 = activation p2.
Hypothesis same_output_activation : output_activation p1 = output_activation p2.

Lemma map_seq_inj {X : Type} (f f' : nat -> X) (n : nat) :
  map f (seq 0 n) = map f' (seq 0 n) -> forall i, (i < n)%nat -> f i = f' i.
Proof.
  intros H i Hi. apply (ext_in_map H). apply in_seq. lia.
Qed.

Lemma Dense_ext (units : nat) (act : Activation)
    (k k' : nat -> nat -> R) (b b' : nat -> R) (x : list R) :
  (forall i j, (i < length x)%nat -> (j < units)%nat -> k i j = k' i j) ->
  (forall j, (j < units)%nat -> b j = b' j) ->
  Dense units act k b x = Dense units act k' b' x.
Proof.
  intros Hk Hb. unfold Dense. apply map_ext_in. intros j Hj. apply in_seq in Hj.
  rewrite Hb by lia. do 3 f_equal. unfold map2. apply map_ext_in.
  intros [i xi] Hi. apply in_combine_l, in_seq in Hi. cbn [fst snd].
  rewrite Hk by lia. reflexivity.
Qed.

Lemma layer_variables_inj (l in_dim units : nat) :
  layer_variables p1 l in_dim units = layer_variables p2 l in_dim units ->
  (forall i j, (i < in_dim)%nat -> (j < units)%nat ->
               kernel (weights p1) l i j = kernel (weights p2) l i j) /\
  (forall j, (j < units)%nat -> bias (weights p1) l j = bias (weights p2) l j).
Proof.
  unfold layer_variables. intros H. injection H as Hk Hb. split.
  - intros i j Hi Hj.
    pose proof (map_seq_inj _ _ _ Hk i Hi) as Hrow. cbv beta in Hrow.
    exact (map_seq_inj _ _ _ Hrow j Hj).
  - intros j Hj. exact (map_seq_inj _ _ _ Hb j Hj).
Qed.

Lemma stack_variables_network (sizes : list nat) (l0 : nat) (x : list R)
    (act oact : Activation) :
  stack_variables p1 l0 (length x) sizes = stack_variables p2 l0 (length x) sizes ->
  Dense (output_shape p1 * 2) oact
        (kernel (weights p1) (l0 + length sizes)) (bias (weights p1) (l0 + length sizes))
        (hidden_stack act (weights p1) l0 sizes x)
  = Dense (output_shape p1 * 2) oact
          (kernel (weights p2) (l0 + length sizes)) (bias (weights p2) (l0 + length sizes))
          (hidden_stack act (weights p2) l0 sizes x).
Proof.
  revert l0 x. induction sizes as [|u rest IH]; intros l0 x H.
  - cbn [stack_variables] in H. rewrite <- same_output_shape in H.
    apply layer_variables_inj in H. destruct H as [Hk Hb].
    cbn [length hidden_stack]. rewrite Nat.add_0_r. now apply Dense_ext.
  - cbn [stack_variables] in H. unfold layer_variables in H at 1 2.
    cbn [app] in H. injection H as Hk Hb Hrest.
    assert (Hl : layer_variables p1 l0 (length x) u = layer_variables p2 l0 (length x) u).
    { unfold layer_variables. now rewrite Hk, Hb. }
    apply layer_variables_inj in Hl. destruct Hl as [Hke Hbe].
    cbn [length hidden_stack].
    rewrite (Dense_ext u act _ (kernel (weights p2) l0) _ (bias (weights p2) l0) x Hke Hbe).
    replace (l0 + S (length rest))%nat with (S l0 + length rest)%nat by lia.
    apply IH. now rewrite Dense_length.
Qed.

Lemma network_out_same (row : list R) :
  length row = list_sum (input_shapes p1) ->
  trainable_variables p1 = trainable_variables p2 ->
  network_out p1 row = network_out p2 row.
Proof.
  intros Hrow Htv. unfold trainable_variables in Htv.
  rewrite <- same_input_shapes, <- same_hidden_layer_sizes, <- Hrow in Htv.
  unfold network_out.
  rewrite <- same_output_shape, <- same_output_activation, <- same_activation,
    <- same_hidden_layer_sizes.
  exact (stack_variables_network (hidden_layer_sizes p1) 0 row _ _ Htv).
Qed.

Lemma conditions_layer_same (c : list Tensor) :
  conditions_layer p1 c = conditions_layer p2 c.
Proof. unfold conditions_layer. now rewrite same_input_shapes. Qed.

Lemma params_same (conditions : list (list R)) :
  Forall (fun row => length row = list_sum (input_shapes p1)) conditions ->
  trainable_variables p1 = trainable_variables p2 ->
  map (shift_and_log_scale_diag p1) conditions
  = map (shift_and_log_scale_diag p2) conditions.
Proof.
  intros Hw Htv. apply map_ext_in. intros row Hrow.
  rewrite Forall_forall in Hw. unfold shift_and_log_scale_diag.
  now rewrite (network_out_same row (Hw row Hrow) Htv).
Qed.

Lemma operations_same :
  trainable_variables p1 = trainable_variables p2 ->
  (forall c g, actions p1 c g = actions p2 c g) /\
  (forall c a, log_pis p1 c a = log_pis p2 c a).
Proof.
  intros Htv.
  assert (Hsq : squash_bijector p1 = squash_bijector p2).
  { unfold squash_bijector. now rewrite same_squash. }
  assert (Hbd : base_distribution p1 = base_distribution p2).
  { unfold base_distribution. now rewrite same_output_shape. }
  split.
  - intros c g. rewrite !actions_of_raw, Hsq.
    assert (Hraw : raw_actions p1 c g = raw_actions p2 c g).
    { unfold raw_actions. rewrite <- conditions_layer_same.
      destruct (conditions_layer p1 c) as [conditions|] eqn:Hc; [|reflexivity].
      rewrite (params_same _ (conditions_width p1 _ _ Hc) Htv), Hbd. reflexivity. }
    now rewrite Hraw.
  - intros c a. unfold log_pis, log_pis_model. rewrite <- conditions_layer_same.
    destruct (conditions_layer p1 c) as [conditions|] eqn:Hc; [|reflexivity].
    rewrite (params_same _ (conditions_width p1 _ _ Hc) Htv), <- same_output_shape.
    destruct (has_shape _ _ a); [|reflexivity].
    f_equal. apply map_ext. intros [[s ls] y]. unfold log_pis_fn.
    now rewrite Hsq, same_output_shape.
Qed.

End VariablesDetermineThePolicy.

(** X4: the trainable variables are all of the policy's learnable state.
    Two policies with the same configuration whose [trainable_variables]
    are equal return the same [actions] (for every generator) and the same
    [log_pis] on all inputs; weights outside the layers' shapes play no
    part. *)
Theorem trainable_variables_determine_the_policy (p1 p2 : GaussianPolicy) :
  _squash p1 = _squash p2 ->
  input_shapes p1 = input_shapes p2 ->
  output_shape p1 = output_shape p2 ->
  hidden_layer_sizes p1 = hidden_layer_sizes p2 ->
  activation p1 = activation p2 ->
  output_activation p1 = output_activation p2 ->
  trainable_variables p1 = trainable_variables p2 ->
  (forall c g, actions p1 c g = actions p2 c g) /\
  (forall c a, log_pis p1 c a = log_pis p2 c a).
Proof. exact (operations_same p1 p2). Qed.

Lemma trainable_variables_determine_the_policy_witness :
  actions Scenario.policy Scenario.conditions Scenario.generator
  = actions Variants.padded Scenario.conditions Scenario.generator.
Proof.
  destruct (trainable_variables_determine_the_policy Scenario.policy Variants.padded)
    as [H _];
    [reflexivity|reflexivity|reflexivity|reflexivity|reflexivity|reflexivity
     |reflexivity|].
  apply H.
Defined.

(* ================================================================= *)
(** ** Further properties of the sampling path *)



(* ================================================================= *)
(** ** Splitting a batch *)

Section BatchSplit.

Variable p : GaussianPolicy.

Lemma map2_app {X Y Z : Type} (f : X -> Y -> Z) (l1 l2 : list X) (l1' l2' : list Y) :
  length l1 = length l1' ->
  map2 f (l1 ++ l2) (l1' ++ l2') = map2 f l1 l1' ++ map2 f l2 l2'.
Proof.
  revert l1'. induction l1 as [|x l1 IH]; intros [|y l1'] H; simpl in *;
    try discriminate; [reflexivity|].
  unfold map2 in *. simpl. f_equal. apply IH. now injection H.
Qed.

Lemma combine_app_same {X Y : Type} (l1 l2 : list X) (l1' l2' : list Y) :
  length l1 = length l1' ->
  combine (l1 ++ l2) (l1' ++ l2') = combine l1 l1' ++ combine l2 l2'.
Proof.
  revert l1'. induction l1 as [|x l1 IH]; intros [|y l1'] H; simpl in *;
    try discriminate; [reflexivity|].
  f_equal. apply IH. now injection H.
Qed.

Lemma stacked_shapes (n1 n2 : nat) (shapes : list nat) (c1 c2 : list Tensor) :
  Forall2 (fun d t => has_shape n1 d t = true) shapes c1 ->
  Forall2 (fun d t => has_shape n2 d t = true) shapes c2 ->
  Forall2 (fun d t => has_shape (n1 + n2) d t = true) shapes (map2 (@app (list R)) c1 c2) /\
  tf_concat_last (n1 + n2) (map2 (@app (list R)) c1 c2)
  = tf_concat_last n1 c1 ++ tf_concat_last n2 c2.
Proof.
  intros H1. revert c2. induction H1 as [|d t1 shapes c1 Ht1 H1 IH]; intros c2 H2.
  - inversion H2; subst. split; [constructor|]. simpl. apply repeat_app.
  - inversion H2 as [|d' t2 shapes' c2' Ht2 H2']; subst.
    destruct (IH _ H2') as [IHs IHc].
    apply has_shape_spec in Ht1. apply has_shape_spec in Ht2.
    destruct Ht1 as [Hl1 Hr1]. destruct Ht2 as [Hl2 Hr2].
    split.
    + change (map2 (@app (list R)) (t1 :: c1) (t2 :: c2'))
        with ((t1 ++ t2) :: map2 (@app (list R)) c1 c2').
      constructor; [|exact IHs].
      apply has_shape_spec. split; [rewrite length_app; lia|].
      apply Forall_app. now split.
    + change (map2 (@app (list R)) (t1 :: c1) (t2 :: c2'))
        with ((t1 ++ t2) :: map2 (@app (list R)) c1 c2').
      cbn [tf_concat_last]. rewrite IHc. apply map2_app.
      rewrite tf_concat_last_length; [assumption|].
      clear - H1. induction H1 as [|? ? ? ? Hh _ IH']; constructor; [|exact IH'].
      now apply has_shape_spec in Hh.
Qed.

Lemma conditions_layer_app (c1 c2 : list Tensor) (k1 k2 : list (list R)) :
  conditions_layer p c1 = Ok k1 ->
  conditions_layer p c2 = Ok k2 ->
  conditions_layer p (map2 (@app (list R)) c1 c2) = Ok (k1 ++ k2).
Proof.
  intros H1 H2.
  apply conditions_layer_iff in H1. apply conditions_layer_iff in H2.
  destruct H1 as (Hne1 & Hs1 & ->). destruct H2 as (Hne2 & Hs2 & ->).
  destruct (stacked_shapes _ _ _ _ _ Hs1 Hs2) as [Hs Hc].
  apply conditions_layer_iff.
  destruct c1 as [|t1 c1]; [contradiction|]. destruct c2 as [|t2 c2]; [contradiction|].
  assert (Hb : batch_of (map2 (@app (list R)) (t1 :: c1) (t2 :: c2))
               = (batch_of (t1 :: c1) + batch_of (t2 :: c2))%nat).
  { simpl. apply length_app. }
  rewrite Hb. split; [discriminate|]. split; [exact Hs|]. now rewrite Hc.
Qed.

End BatchSplit.

(** X8: scoring is row by row.  [log_pis] on two batches stacked source
    by source, with the candidate actions stacked likewise, returns the two
    results one after the other. *)
Theorem log_pis_of_stacked_batches
    (p : GaussianPolicy) (c1 c2 : list Tensor) (a1 a2 : list (list R))
    (l1 l2 : list (list (option R))) :
  log_pis p c1 a1 = Ok l1 ->
  log_pis p c2 a2 = Ok l2 ->
  log_pis p (map2 (@app (list R)) c1 c2) (a1 ++ a2) = Ok (l1 ++ l2).
Proof.
  unfold log_pis, log_pis_model. intros H1 H2.
  destruct (conditions_layer p c1) as [k1|] eqn:Hc1; [|discriminate].
  destruct (conditions_layer p c2) as [k2|] eqn:Hc2; [|discriminate].
  rewrite (conditions_layer_app p _ _ _ _ Hc1 Hc2).
  destruct (has_shape (length k1) (output_shape p) a1) eqn:Ha1; [|discriminate].
  destruct (has_shape (length k2) (output_shape p) a2) eqn:Ha2; [|discriminate].
  injection H1 as <-. injection H2 as <-.
  apply has_shape_spec in Ha1. apply has_shape_spec in Ha2.
  destruct Ha1 as [Hn1 Hr1]. destruct Ha2 as [Hn2 Hr2].
  assert (Ha : has_shape (length (k1 ++ k2)) (output_shape p) (a1 ++ a2) = true).
  { apply has_shape_spec. split; [rewrite !length_app; lia|].
    apply Forall_app. now split. }
  rewrite Ha, map_app, combine_app_same by (rewrite length_map; congruence).
  now rewrite map_app.
Qed.

(* ================================================================= *)
(** ** Further properties of the scoring path *)

Section ScoringFurther.

Variable p : GaussianPolicy.

Lemma standardize_id (z : list R) (n : nat) :
  length z = n ->
  map2 Rdiv (map2 Rminus z (tf_zeros n)) (tf_ones n) = z.
Proof.
  revert n. induction z as [|z0 z IH]; intros [|n] H; simpl in *;
    try discriminate; [reflexivity|].
  unfold map2 in *. simpl. f_equal; [field|]. apply IH. now injection H.
Qed.

Lemma log_abs_det_ones (n : nat) :
  reduce_sum (map (fun s => ln (Rabs s)) (tf_ones n)) = 0.
Proof.
  induction n as [|n IH]; simpl; [reflexivity|].
  unfold tf_ones in IH. rewrite IH, Rabs_R1, ln_1. ring.
Qed.

Lemma base_log_prob (z : list R) :
  length z = output_shape p ->
  MultivariateNormalDiag_log_prob (base_distribution p) z
  = reduce_sum (map normal_log_prob z).
Proof.
  intros Hz. unfold MultivariateNormalDiag_log_prob, base_distribution.
  cbn [loc scale_diag]. rewrite (standardize_id z _ Hz), log_abs_det_ones. ring.
Qed.

Lemma normal_log_prob_le (z : R) : normal_log_prob z <= - / 2 * ln (2 * PI).
Proof. unfold normal_log_prob. nra. Qed.

Lemma reduce_sum_le (hi : R) (v : list R) :
  Forall (fun x => x <= hi) v -> reduce_sum v <= INR (length v) * hi.
Proof.
  induction 1 as [|x v Hx _ IH].
  - simpl. lra.
  - change (length (x :: v)) with (S (length v)). rewrite S_INR.
    simpl reduce_sum. lra.
Qed.

Lemma squash_terms_closed_form (y : list R) :
  Forall (fun a => -1 < a < 1) y ->
  map SquashBijector_forward_log_det_jacobian (map atanh y)
  = map (fun a => ln (1 - a ^ 2)) y.
Proof.
  intros Hy. rewrite map_map. apply map_ext_in. intros a Ha.
  rewrite Forall_forall in Hy.
  pose proof (squash_ildj_closed_form a (Hy a Ha)). lra.
Qed.

(** The entry of [log_pis] for one row, by cases on the squash. *)
Lemma chain_log_prob_squashed (s ls y : list R) :
  _squash p = true ->
  length s = output_shape p -> length ls = output_shape p ->
  length y = output_shape p ->
  TransformedDistribution_log_prob (base_distribution p)
    (Chain [squash_bijector p; Affine s (map exp ls)]) y
  = if forallb in_open_unit y
    then Some (reduce_sum (map normal_log_prob
                             (map2 Rdiv (map2 Rminus (map atanh y) s) (map exp ls)))
               - reduce_sum ls
               - reduce_sum (map (fun a => ln (1 - a ^ 2)) y))
    else None.
Proof.
  intros Hsq Hs Hl Hy.
  rewrite chain_log_prob by congruence.
  rewrite chain_inverse. unfold squash_bijector. rewrite Hsq. cbn [inverse].
  destruct (forallb in_open_unit y) eqn:Hr; [|reflexivity].
  cbn [obind].
  pose proof (chain_fldj p s ls (map2 Rdiv (map2 Rminus (map atanh y) s) (map exp ls)))
    as Hf.
  unfold squash_bijector in Hf. rewrite Hsq in Hf. rewrite Hf. clear Hf.
  assert (Hfw : forward (Affine s (map exp ls))
                        (map2 Rdiv (map2 Rminus (map atanh y) s) (map exp ls))
                = map atanh y).
  { simpl. apply affine_forward_inverse;
      [rewrite !length_map; congruence|rewrite length_map; congruence
       |apply nonzero_spec, nonzero_exp]. }
  rewrite Hfw. cbn [forward_log_det_jacobian obind].
  rewrite squash_terms_closed_form by now apply in_open_unit_forall.
  rewrite base_log_prob.
  - apply f_equal. ring.
  - apply map2_length_same; [|now rewrite length_map].
    apply map2_length_same; [rewrite length_map|]; congruence.
Qed.

Lemma chain_log_prob_unsquashed (s ls y : list R) :
  _squash p = false ->
  length s = output_shape p -> length ls = output_shape p ->
  length y = output_shape p ->
  TransformedDistribution_log_prob (base_distribution p)
    (Chain [squash_bijector p; Affine s (map exp ls)]) y
  = Some (reduce_sum (map normal_log_prob (map2 Rdiv (map2 Rminus y s) (map exp ls)))
          - reduce_sum ls).
Proof.
  intros Hsq Hs Hl Hy.
  rewrite chain_log_prob by congruence.
  rewrite chain_inverse. unfold squash_bijector. rewrite Hsq. cbn [inverse obind].
  pose proof (chain_fldj p s ls (map2 Rdiv (map2 Rminus y s) (map exp ls))) as Hf.
  unfold squash_bijector in Hf. rewrite Hsq in Hf. rewrite Hf. clear Hf.
  cbn [forward_log_det_jacobian obind].
  rewrite base_log_prob.
  - apply f_equal. ring.
  - apply map2_length_same; [|now rewrite length_map].
    apply map2_length_same; congruence.
Qed.

Lemma log_pis_entries (c : list Tensor) (a conditions : list (list R)) :
  conditions_layer p c = Ok conditions ->
  has_shape (length conditions) (output_shape p) a = true ->
  exists lps,
    log_pis p c a = Ok lps /\
    length lps = length conditions /\
    forall i, (i < length conditions)%nat ->
      length (nth i a []) = output_shape p /\
      nth i lps [] =
      [TransformedDistribution_log_prob (base_distribution p)
         (Chain [squash_bijector p;
                 Affine (fst (shift_and_log_scale_diag p (nth i conditions [])))
                        (map exp (snd (shift_and_log_scale_diag p (nth i conditions []))))])
         (nth i a [])].
Proof.
  intros Hc Ha.
  destruct (log_pis_rows p c a _ Hc Ha) as (lps & Hlp & Hlen & Hrows).
  exists lps. split; [exact Hlp|]. split; [exact Hlen|].
  intros i Hi. apply has_shape_spec in Ha. destruct Ha as [Hal Har].
  assert (Hy : length (nth i a []) = output_shape p).
  { rewrite Forall_forall in Har. apply Har, nth_In. lia. }
  split; [exact Hy|].
  rewrite (Hrows i Hi). cbv zeta. apply f_equal2; [|reflexivity].
  symmetry. apply chain_log_prob;
    rewrite ?shift_length, ?log_scale_diag_length; congruence.
Qed.

End ScoringFurther.


(** X10: with squashing on, the log-probability of an action [a] inside
    the open cube is the standard-normal log-density of
    [z = (atanh a - shift) / exp log_scale_diag], minus the sum of the
    log-scales, minus the sum of [log (1 - a_j^2)]. *)
Theorem log_pis_squashed_closed_form
    (p : GaussianPolicy) (c : list Tensor) (a conditions : list (list R)) :
  _squash p = true ->
  conditions_layer p c = Ok conditions ->
  has_shape (length conditions) (output_shape p) a = true ->
  exists lps,
    log_pis p c a = Ok lps /\
    forall i, (i < length conditions)%nat ->
      Forall (fun y => -1 < y < 1) (nth i a []) ->
      let shift := fst (shift_and_log_scale_diag p (nth i conditions [])) in
      let log_scale_diag := snd (shift_and_log_scale_diag p (nth i conditions [])) in
      let z := map2 Rdiv (map2 Rminus (map atanh (nth i a [])) shift)
                    (map exp log_scale_diag) in
      nth i lps [] =
      [Some (reduce_sum (map normal_log_prob z)
             - reduce_sum log_scale_diag
             - reduce_sum (map (fun y => ln (1 - y ^ 2)) (nth i a [])))].
Proof.
  intros Hsq Hc Ha.
  destruct (log_pis_entries p c a _ Hc Ha) as (lps & Hlp & _ & Hrows).
  exists lps. split; [exact Hlp|]. intros i Hi Hr. cbv zeta.
  destruct (Hrows i Hi) as [Hy ->].
  rewrite (chain_log_prob_squashed p _ _ _ Hsq (shift_length p _)
                                   (log_scale_diag_length p _) Hy).
  apply in_open_unit_forall in Hr. now rewrite Hr.
Qed.

(** X11: with squashing off, [log_pis] is the log-density of the diagonal
    Gaussian with mean [shift] and standard deviation [exp log_scale_diag].
    Because the log-scale is clipped at -20 from below, no action is scored
    above [A * (20 - log (2 pi) / 2)]. *)
Theorem log_pis_unsquashed_closed_form
    (p : GaussianPolicy) (c : list Tensor) (a conditions : list (list R)) :
  _squash p = false ->
  conditions_layer p c = Ok conditions ->
  has_shape (length conditions) (output_shape p) a = true ->
  exists lps,
    log_pis p c a = Ok lps /\
    forall i, (i < length conditions)%nat ->
      let shift := fst (shift_and_log_scale_diag p (nth i conditions [])) in
      let log_scale_diag := snd (shift_and_log_scale_diag p (nth i conditions [])) in
      let z := map2 Rdiv (map2 Rminus (nth i a []) shift) (map exp log_scale_diag) in
      let v := reduce_sum (map normal_log_prob z) - reduce_sum log_scale_diag in
      nth i lps [] = [Some v] /\
      v <= INR (output_shape p) * (20 - / 2 * ln (2 * PI)).
Proof.
  intros Hsq Hc Ha.
  destruct (log_pis_entries p c a _ Hc Ha) as (lps & Hlp & _ & Hrows).
  exists lps. split; [exact Hlp|]. intros i Hi. cbv zeta.
  destruct (Hrows i Hi) as [Hy ->].
  pose proof (shift_length p (nth i conditions [])) as Hs.
  pose proof (log_scale_diag_length p (nth i conditions [])) as Hl.
  rewrite (chain_log_prob_unsquashed p _ _ _ Hsq Hs Hl Hy).
  split; [reflexivity|].
  set (z := map2 Rdiv _ _).
  assert (Hz : length z = output_shape p).
  { apply map2_length_same; [|now rewrite length_map].
    apply map2_length_same; congruence. }
  assert (Hn : reduce_sum (map normal_log_prob z)
               <= INR (output_shape p) * (- / 2 * ln (2 * PI))).
  { rewrite <- Hz, <- (length_map normal_log_prob z). apply reduce_sum_le.
    apply Forall_forall. intros x Hx. apply in_map_iff in Hx.
    destruct Hx as [t [<- _]]. apply normal_log_prob_le. }
  pose proof (reduce_sum_bounds (-20) 2 _ (log_scale_diag_clipped p (nth i conditions [])))
    as Hb.
  rewrite Hl in Hb. lra.
Qed.

(* ================================================================= *)
(** ** The further properties at the concrete policy *)

Lemma log_pis_of_stacked_batches_witness :
  log_pis Scenario.policy Scenario.conditions Scenario.candidates
  = Ok (Variants.first_log_pis ++ Variants.last_log_pis).
Proof.
  apply (log_pis_of_stacked_batches
           Scenario.policy Variants.first_rows Variants.last_rows
           Variants.first_candidates Variants.last_candidates
           Variants.first_log_pis Variants.last_log_pis).
  - reflexivity.
  - reflexivity.
Defined.


Lemma log_pis_squashed_closed_form_witness :
  exists lps,
    log_pis Scenario.policy Scenario.conditions Scenario.candidates = Ok lps.
Proof.
  destruct (log_pis_squashed_closed_form
              Scenario.policy Scenario.conditions Scenario.candidates
              Scenario.concatenated)
    as (lps & Hl & _); [reflexivity|reflexivity|reflexivity|].
  exists lps. exact Hl.
Defined.

Lemma log_pis_unsquashed_closed_form_witness :
  exists lps,
    log_pis Scenario.unsquashed Scenario.conditions Variants.boundary_candidates = Ok lps
    /\ exists v : R, nth 1 lps [] = [Some v] /\ v <= 2 * (20 - / 2 * ln (2 * PI)).
Proof.
  destruct (log_pis_unsquashed_closed_form
              Scenario.unsquashed Scenario.conditions Variants.boundary_candidates
              Scenario.concatenated)
    as (lps & Hl & Hrows); [reflexivity|reflexivity|reflexivity|].
  exists lps. split; [exact Hl|].
  destruct (Hrows 1%nat) as [Hv Hb]; [simpl; lia|].
  eexists. split; [exact Hv|exact Hb].
Defined.


(* ================================================================= *)
(** ** Rounding to binary32 *)

Section Binary32Facts.
Import Binary32.

Lemma bpow_pos (e : Z) : 0 < bpow e.
Proof. apply powerRZ_lt. lra. Qed.

Lemma bpow_add (e1 e2 : Z) : bpow (e1 + e2) = bpow e1 * bpow e2.
Proof. apply powerRZ_add. lra. Qed.

Lemma bpow_0 : bpow 0 = 1.
Proof. reflexivity. Qed.

Lemma bpow_opp (e : Z) : bpow (- e) = / bpow e.
Proof. apply powerRZ_neg'. Qed.

Lemma bpow_cancel (e : Z) : bpow (- e) * bpow e = 1.
Proof. rewrite <- bpow_add. replace (- e + e)%Z with 0%Z by lia. reflexivity. Qed.

Lemma bpow_IZR (e : Z) : (0 <= e)%Z -> bpow e = IZR (2 ^ e).
Proof.
  intros He. unfold bpow. rewrite <- (Z2Nat.id e He) at 1.
  rewrite <- pow_powerRZ, pow_IZR. now rewrite Z2Nat.id.
Qed.

Lemma bpow_exp (e : Z) : bpow e = exp (IZR e * ln 2).
Proof. unfold bpow. rewrite powerRZ_Rpower by lra. reflexivity. Qed.

Lemma ln_2_pos' : 0 < ln 2.
Proof. pose proof ln_lt_2. lra. Qed.

Lemma bpow_lt (e1 e2 : Z) : (e1 < e2)%Z -> bpow e1 < bpow e2.
Proof.
  intros H. rewrite !bpow_exp. apply exp_increasing.
  apply Rmult_lt_compat_r; [apply ln_2_pos'|now apply IZR_lt].
Qed.

Lemma bpow_le (e1 e2 : Z) : (e1 <= e2)%Z -> bpow e1 <= bpow e2.
Proof.
  intros H. destruct (Z.eq_dec e1 e2) as [->|Hn]; [lra|].
  left. apply bpow_lt. lia.
Qed.

Lemma bpow_lt_inv (e1 e2 : Z) : bpow e1 < bpow e2 -> (e1 < e2)%Z.
Proof.
  intros H. destruct (Z_lt_le_dec e1 e2) as [Hl|Hg]; [exact Hl|].
  pose proof (bpow_le _ _ Hg). lra.
Qed.

(** *** Rounding to the nearest integer, ties to even *)

Lemma ZnearestE_floor (x : R) :
  ZnearestE x = Zfloor x \/ ZnearestE x = (Zfloor x + 1)%Z.
Proof.
  unfold ZnearestE. destruct (Rlt_dec _ _); [auto|].
  destruct (Rlt_dec _ _); [auto|]. destruct (Z.even _); auto.
Qed.

Lemma ZnearestE_IZR (n : Z) : ZnearestE (IZR n) = n.
Proof.
  unfold ZnearestE. rewrite ZfloorZ.
  destruct (Rlt_dec (IZR n - IZR n) (/ 2)) as [_|H]; [reflexivity|]. lra.
Qed.

Lemma ZnearestE_ge (n : Z) (x : R) : IZR n <= x -> (n <= ZnearestE x)%Z.
Proof.
  intros H. pose proof (Zfloor_lub n x H).
  destruct (ZnearestE_floor x) as [-> | ->]; lia.
Qed.

Lemma ZnearestE_le (n : Z) (x : R) : x <= IZR n -> (ZnearestE x <= n)%Z.
Proof.
  intros [H|H].
  - assert (Hf : (Zfloor x < n)%Z).
    { apply lt_IZR. pose proof (Zfloor_bound x). lra. }
    destruct (ZnearestE_floor x) as [-> | ->]; lia.
  - subst x. rewrite ZnearestE_IZR. lia.
Qed.

Lemma Z_close_eq (a b : Z) : Rabs (IZR a - IZR b) < 1 -> a = b.
Proof.
  intros H. apply Rabs_def2 in H. destruct H as [H1 H2].
  rewrite <- minus_IZR in H1, H2.
  apply lt_IZR in H1. apply (lt_IZR (-1)) in H2. lia.
Qed.

Lemma ZnearestE_near (n : Z) (x : R) : Rabs (x - IZR n) < / 2 -> ZnearestE x = n.
Proof.
  intros H. apply Rabs_def2 in H. destruct H as [H1 H2].
  unfold ZnearestE. pose proof (Zfloor_bound x) as Hb.
  destruct (Rlt_dec (x - IZR (Zfloor x)) (/ 2)) as [Hd|Hd].
  - apply Z_close_eq. apply Rabs_def1; lra.
  - destruct (Rlt_dec (/ 2) (x - IZR (Zfloor x))) as [Hh|Hh].
    + apply Z_close_eq. rewrite plus_IZR. apply Rabs_def1; lra.
    + exfalso. assert (He : x - IZR (Zfloor x) = / 2) by lra.
      assert (H0 : 0 < IZR (n - Zfloor x) < 1) by (rewrite minus_IZR; lra).
      destruct H0 as [Ha Hb'].
      apply (lt_IZR 0) in Ha. apply (lt_IZR _ 1) in Hb'. lia.
Qed.

Lemma ZnearestE_error (x : R) : Rabs (IZR (ZnearestE x) - x) <= / 2.
Proof.
  unfold ZnearestE. pose proof (Zfloor_bound x) as Hb.
  destruct (Rlt_dec (x - IZR (Zfloor x)) (/ 2)) as [Hd|Hd].
  - apply Rabs_le. lra.
  - destruct (Rlt_dec (/ 2) (x - IZR (Zfloor x))) as [Hh|Hh].
    + rewrite plus_IZR. apply Rabs_le. lra.
    + destruct (Z.even (Zfloor x)); [|rewrite plus_IZR]; apply Rabs_le; lra.
Qed.

Lemma ZnearestE_monotone (x y : R) : x <= y -> (ZnearestE x <= ZnearestE y)%Z.
Proof.
  intros Hxy. pose proof (Zfloor_le x y Hxy) as Hf.
  destruct (Z.eq_dec (Zfloor x) (Zfloor y)) as [He|Hne].
  - unfold ZnearestE. rewrite He.
    destruct (Rlt_dec (x - IZR (Zfloor y)) (/ 2)) as [Hx|Hx].
    + destruct (Rlt_dec (y - IZR (Zfloor y)) (/ 2)); [lia|].
      destruct (Rlt_dec (/ 2) (y - IZR (Zfloor y))); [lia|].
      destruct (Z.even (Zfloor y)); lia.
    + destruct (Rlt_dec (y - IZR (Zfloor y)) (/ 2)) as [Hy|Hy]; [lra|].
      destruct (Rlt_dec (/ 2) (x - IZR (Zfloor y))) as [Hx2|Hx2].
      * destruct (Rlt_dec (/ 2) (y - IZR (Zfloor y))) as [Hy2|Hy2]; [lia|lra].
      * destruct (Rlt_dec (/ 2) (y - IZR (Zfloor y))) as [Hy2|Hy2].
        -- destruct (Z.even (Zfloor y)); lia.
        -- destruct (Z.even (Zfloor y)); lia.
  - destruct (ZnearestE_floor x) as [-> | ->];
      destruct (ZnearestE_floor y) as [-> | ->]; lia.
Qed.

(** *** The magnitude *)

Lemma mag_spec (x : R) : x <> 0 -> bpow (mag x - 1) <= Rabs x < bpow (mag x).
Proof.
  intros Hx. unfold mag.
  assert (Ha : 0 < Rabs x) by now apply Rabs_pos_lt.
  pose proof (Zfloor_bound (ln (Rabs x) / ln 2)) as [H1 H2].
  set (k := Zfloor (ln (Rabs x) / ln 2)) in *.
  pose proof ln_2_pos' as Hl.
  replace (k + 1 - 1)%Z with k by lia.
  rewrite !bpow_exp, plus_IZR.
  assert (H1' : IZR k * ln 2 <= ln (Rabs x)).
  { apply Rmult_le_compat_r with (r := ln 2) in H1; [|lra].
    unfold Rdiv in H1. rewrite Rmult_assoc, Rinv_l, Rmult_1_r in H1 by lra. exact H1. }
  assert (H2' : ln (Rabs x) < (IZR k + 1) * ln 2).
  { apply Rmult_lt_compat_r with (r := ln 2) in H2; [|lra].
    unfold Rdiv in H2. rewrite Rmult_assoc, Rinv_l, Rmult_1_r in H2 by lra. exact H2. }
  pose proof (exp_ln (Rabs x) Ha) as He.
  split.
  - rewrite <- He.
    destruct H1' as [H|H]; [left; now apply exp_increasing|right; now rewrite H].
  - rewrite <- He at 1. now apply exp_increasing.
Qed.

Lemma mag_unique (x : R) (e : Z) : bpow (e - 1) <= Rabs x < bpow e -> mag x = e.
Proof.
  intros [H1 H2].
  assert (Hx : x <> 0).
  { intros ->. rewrite Rabs_R0 in H1. pose proof (bpow_pos (e - 1)). lra. }
  destruct (mag_spec x Hx) as [M1 M2].
  assert (e - 1 < mag x)%Z by (apply bpow_lt_inv; lra).
  assert (mag x - 1 < e)%Z by (apply bpow_lt_inv; lra).
  lia.
Qed.

Lemma mag_le_bound (x : R) (e : Z) : x <> 0 -> Rabs x < bpow e -> (mag x <= e)%Z.
Proof.
  intros Hx H. destruct (mag_spec x Hx) as [M1 _].
  assert (mag x - 1 < e)%Z by (apply bpow_lt_inv; lra). lia.
Qed.

Lemma mag_ge_bound (x : R) (e : Z) : bpow (e - 1) <= Rabs x -> (e <= mag x)%Z.
Proof.
  intros H.
  assert (Hx : x <> 0).
  { intros ->. rewrite Rabs_R0 in H. pose proof (bpow_pos (e - 1)). lra. }
  destruct (mag_spec x Hx) as [_ M2].
  assert (e - 1 < mag x)%Z by (apply bpow_lt_inv; lra). lia.
Qed.

Lemma mag_monotone_abs (x y : R) : x <> 0 -> Rabs x <= Rabs y -> (mag x <= mag y)%Z.
Proof.
  intros Hx H. destruct (mag_spec x Hx) as [M1 _].
  apply mag_ge_bound in M1. 
  apply mag_ge_bound. 
  destruct (mag_spec x Hx) as [M1' _]. lra.
Qed.

(** *** Rounding to binary32 *)

Lemma bpow_on_grid (k c : Z) : (c <= k)%Z -> bpow k * bpow (- c) = IZR (2 ^ (k - c)).
Proof.
  intros H. rewrite <- bpow_add. replace (k + - c)%Z with (k - c)%Z by lia.
  apply bpow_IZR. lia.
Qed.

Lemma round_on_grid (x : R) (n : Z) : x * bpow (- cexp x) = IZR n -> round x = x.
Proof.
  intros H. unfold round. rewrite H, ZnearestE_IZR, <- H.
  rewrite Rmult_assoc, bpow_cancel. ring.
Qed.

Lemma round_0 : round 0 = 0.
Proof. apply (round_on_grid 0 0). ring. Qed.

Lemma cexp_ge_emin (x : R) : (emin <= cexp x)%Z.
Proof. unfold cexp. lia. Qed.

Lemma cexp_ge_mag (x : R) : (mag x - prec <= cexp x)%Z.
Proof. unfold cexp. lia. Qed.

Lemma round_format (x : R) (m e : Z) :
  x = IZR m * bpow e -> (Z.abs m < 2 ^ prec)%Z -> (emin <= e)%Z -> round x = x.
Proof.
  intros Hx Hm He.
  destruct (Z.eq_dec m 0) as [->|Hm0].
  { rewrite Hx, Rmult_0_l. apply round_0. }
  assert (Hxn : x <> 0).
  { rewrite Hx. apply Rmult_integral_contrapositive_currified.
    - now apply not_0_IZR.
    - pose proof (bpow_pos e). lra. }
  assert (Hc : (cexp x <= e)%Z).
  { assert (Hab : Rabs x < bpow (prec + e)).
    { rewrite Hx, Rabs_mult, (Rabs_pos_eq (bpow e)) by (left; apply bpow_pos).
      rewrite bpow_add. apply Rmult_lt_compat_r; [apply bpow_pos|].
      rewrite bpow_IZR by (unfold prec; lia). rewrite <- abs_IZR. now apply IZR_lt. }
    pose proof (mag_le_bound x _ Hxn Hab). unfold cexp. lia. }
  apply (round_on_grid x (m * 2 ^ (e - cexp x))).
  rewrite mult_IZR, <- (bpow_on_grid e (cexp x) Hc). rewrite Hx at 1. ring.
Qed.

Lemma round_le_grid (x B : R) (n : Z) :
  B * bpow (- cexp x) = IZR n -> x <= B -> round x <= B.
Proof.
  intros HB Hx. unfold round.
  assert (Hn : (ZnearestE (x * bpow (- cexp x)) <= n)%Z).
  { apply ZnearestE_le. rewrite <- HB.
    apply Rmult_le_compat_r; [left; apply bpow_pos|exact Hx]. }
  apply IZR_le in Hn.
  apply Rmult_le_compat_r with (r := bpow (cexp x)) in Hn; [|left; apply bpow_pos].
  rewrite <- HB, Rmult_assoc, bpow_cancel, Rmult_1_r in Hn. exact Hn.
Qed.

Lemma round_ge_grid (x B : R) (n : Z) :
  B * bpow (- cexp x) = IZR n -> B <= x -> B <= round x.
Proof.
  intros HB Hx. unfold round.
  assert (Hn : (n <= ZnearestE (x * bpow (- cexp x)))%Z).
  { apply ZnearestE_ge. rewrite <- HB.
    apply Rmult_le_compat_r; [left; apply bpow_pos|exact Hx]. }
  apply IZR_le in Hn.
  apply Rmult_le_compat_r with (r := bpow (cexp x)) in Hn; [|left; apply bpow_pos].
  rewrite <- HB, Rmult_assoc, bpow_cancel, Rmult_1_r in Hn. exact Hn.
Qed.

Lemma zero_on_grid (c : Z) : 0 * bpow (- c) = IZR 0.
Proof. ring. Qed.

Lemma round_nonneg (x : R) : 0 <= x -> 0 <= round x.
Proof. intros H. exact (round_ge_grid x 0 0 (zero_on_grid _) H). Qed.

Lemma round_nonpos (x : R) : x <= 0 -> round x <= 0.
Proof. intros H. exact (round_le_grid x 0 0 (zero_on_grid _) H). Qed.

Lemma cexp_monotone_abs (x y : R) : x <> 0 -> Rabs x <= Rabs y -> (cexp x <= cexp y)%Z.
Proof.
  intros Hx H. pose proof (mag_monotone_abs x y Hx H). unfold cexp. lia.
Qed.

Lemma round_monotone_same_cexp (x y : R) :
  cexp x = cexp y -> x <= y -> round x <= round y.
Proof.
  intros Hc Hxy. unfold round. rewrite Hc.
  apply Rmult_le_compat_r; [left; apply bpow_pos|].
  apply IZR_le, ZnearestE_monotone.
  apply Rmult_le_compat_r; [left; apply bpow_pos|exact Hxy].
Qed.

Lemma round_monotone_pos (x y : R) : 0 < x -> x <= y -> round x <= round y.
Proof.
  intros Hx Hxy.
  assert (Hx0 : x <> 0) by lra. assert (Hy0 : y <> 0) by lra.
  assert (Hab : Rabs x <= Rabs y) by (rewrite !Rabs_pos_eq by lra; exact Hxy).
  pose proof (cexp_monotone_abs x y Hx0 Hab) as Hc.
  destruct (Z.eq_dec (cexp x) (cexp y)) as [He|Hne].
  { now apply round_monotone_same_cexp. }
  assert (Hlt : (cexp x < cexp y)%Z) by lia.
  pose proof (cexp_ge_emin x) as Hmin.
  assert (Hcy : cexp y = (mag y - prec)%Z) by (unfold cexp in *; lia).
  assert (Hmx : (mag x <= mag y - 1)%Z) by (unfold cexp in *; lia).
  destruct (mag_spec x Hx0) as [_ Mx]. destruct (mag_spec y Hy0) as [My _].
  rewrite Rabs_pos_eq in Mx, My by lra.
  pose proof (bpow_le _ _ Hmx) as Hb.
  apply Rle_trans with (bpow (mag y - 1)).
  - apply (round_le_grid x _ _ (bpow_on_grid (mag y - 1) (cexp x) ltac:(unfold prec in *; lia))).
    lra.
  - apply (round_ge_grid y _ _ (bpow_on_grid (mag y - 1) (cexp y) ltac:(unfold prec in *; lia))).
    exact My.
Qed.

Lemma round_monotone_neg (x y : R) : y < 0 -> x <= y -> round x <= round y.
Proof.
  intros Hy Hxy.
  assert (Hx0 : x <> 0) by lra. assert (Hy0 : y <> 0) by lra.
  assert (Hab : Rabs y <= Rabs x).
  { rewrite !Rabs_left1 by lra. lra. }
  pose proof (cexp_monotone_abs y x Hy0 Hab) as Hc.
  destruct (Z.eq_dec (cexp x) (cexp y)) as [He|Hne].
  { now apply round_monotone_same_cexp. }
  assert (Hlt : (cexp y < cexp x)%Z) by lia.
  pose proof (cexp_ge_emin y) as Hmin.
  assert (Hcx : cexp x = (mag x - prec)%Z) by (unfold cexp in *; lia).
  assert (Hmy : (mag y <= mag x - 1)%Z) by (unfold cexp in *; lia).
  destruct (mag_spec y Hy0) as [_ My]. destruct (mag_spec x Hx0) as [Mx _].
  rewrite Rabs_left1 in Mx, My by lra.
  pose proof (bpow_le _ _ Hmy) as Hb.
  assert (Hg : forall c, (c <= mag x - 1)%Z ->
                         - bpow (mag x - 1) * bpow (- c) = IZR (- 2 ^ (mag x - 1 - c))).
  { intros c Hcc. rewrite opp_IZR, <- (bpow_on_grid _ _ Hcc). ring. }
  apply Rle_trans with (- bpow (mag x - 1)).
  - apply (round_le_grid x _ _ (Hg (cexp x) ltac:(unfold prec in *; lia))). lra.
  - apply (round_ge_grid y _ _ (Hg (cexp y) ltac:(unfold prec in *; lia))). lra.
Qed.

Lemma round_monotone (x y : R) : x <= y -> round x <= round y.
Proof.
  intros Hxy.
  destruct (Rlt_dec 0 x) as [Hx|Hx]; [now apply round_monotone_pos|].
  destruct (Rlt_dec y 0) as [Hy|Hy]; [now apply round_monotone_neg|].
  apply Rle_trans with 0; [apply round_nonpos|apply round_nonneg]; lra.
Qed.

Lemma round_le_format (x b : R) : round b = b -> x <= b -> round x <= b.
Proof. intros Hb H. rewrite <- Hb. now apply round_monotone. Qed.

Lemma round_ge_format (x a : R) : round a = a -> a <= x -> a <= round x.
Proof. intros Ha H. rewrite <- Ha. now apply round_monotone. Qed.

Lemma round_error (x : R) : Rabs (round x - x) <= / 2 * bpow (cexp x).
Proof.
  unfold round.
  pose proof (ZnearestE_error (x * bpow (- cexp x))) as H.
  set (n := ZnearestE (x * bpow (- cexp x))) in *.
  replace (IZR n * bpow (cexp x) - x)
    with ((IZR n - x * bpow (- cexp x)) * bpow (cexp x)).
  - rewrite Rabs_mult, (Rabs_pos_eq (bpow _)) by (left; apply bpow_pos).
    apply Rmult_le_compat_r; [left; apply bpow_pos|exact H].
  - rewrite Rmult_minus_distr_r, Rmult_assoc, bpow_cancel. ring.
Qed.

Lemma round_relative_error (x : R) :
  bpow (emin + prec - 1) <= Rabs x -> Rabs (round x - x) <= bpow (- prec) * Rabs x.
Proof.
  intros Hn.
  assert (Hx : x <> 0).
  { intros ->. rewrite Rabs_R0 in Hn. pose proof (bpow_pos (emin + prec - 1)). lra. }
  pose proof (mag_ge_bound x _ Hn) as Hm.
  assert (Hc : cexp x = (mag x - prec)%Z) by (unfold cexp; lia).
  destruct (mag_spec x Hx) as [M1 _].
  apply Rle_trans with (1 := round_error x). rewrite Hc.
  replace (mag x - prec)%Z with ((- prec + 1) + (mag x - 1))%Z by lia.
  rewrite bpow_add.
  assert (Hh : / 2 * bpow (- prec + 1) = bpow (- prec)).
  { replace (- prec + 1)%Z with (1 + - prec)%Z by lia. rewrite bpow_add.
    change (bpow 1) with (2 * 1). field. }
  rewrite <- Rmult_assoc, Hh.
  apply Rmult_le_compat_l; [left; apply bpow_pos|exact M1].
Qed.

Lemma rnd_Some (x : R) : Rabs (round x) < bpow emax -> rnd x = Some (round x).
Proof. intros H. unfold rnd. now destruct (Rlt_dec _ _). Qed.

Lemma rnd_format (x : R) : round x = x -> Rabs x < bpow emax -> rnd x = Some x.
Proof. intros Hr H. rewrite rnd_Some; rewrite Hr; [reflexivity|exact H]. Qed.

Lemma rnd_inv (x y : R) : rnd x = Some y -> y = round x /\ Rabs y < bpow emax.
Proof.
  unfold rnd. destruct (Rlt_dec _ _) as [H|H]; [|discriminate].
  intros E. injection E as <-. auto.
Qed.

End Binary32Facts.

(* ================================================================= *)
(** ** The hyperbolic tangent in binary32 *)

Section Tanh32.
Import Binary32.

Lemma round_of_format (x : R) : format x -> round x = x.
Proof. intros (m & e & Hx & Hm & He). exact (round_format x m e Hx Hm He). Qed.

Lemma format_IZR (m : Z) : (Z.abs m < 2 ^ prec)%Z -> format (IZR m).
Proof.
  intros Hm. exists m, 0%Z. split; [rewrite bpow_0; ring|]. split; [exact Hm|].
  unfold emin. lia.
Qed.

Lemma format_opp (x : R) : format x -> format (- x).
Proof.
  intros (m & e & Hx & Hm & He). exists (- m)%Z, e.
  split; [rewrite opp_IZR, Hx; ring|]. split; [now rewrite Z.abs_opp|exact He].
Qed.

Lemma format_double (x : R) : format x -> format (2 * x).
Proof.
  intros (m & e & Hx & Hm & He). exists m, (e + 1)%Z.
  split; [|split; [exact Hm|lia]].
  rewrite bpow_add, Hx. change (bpow 1) with (2 * 1). ring.
Qed.

Lemma format_half (x : R) : format x -> 1 <= Rabs x -> format (x / 2).
Proof.
  intros (m & e & Hx & Hm & He) H1.
  assert (Hlt : (emin < e)%Z).
  { destruct (Z_lt_le_dec emin e) as [Hl|Hg]; [exact Hl|exfalso].
    assert (e = emin) by lia. subst e.
    assert (Hb : Rabs x < bpow (prec + emin)).
    { rewrite Hx, Rabs_mult, (Rabs_pos_eq (bpow emin)) by (left; apply bpow_pos).
      rewrite bpow_add. apply Rmult_lt_compat_r; [apply bpow_pos|].
      rewrite bpow_IZR by (unfold prec; lia). rewrite <- abs_IZR. now apply IZR_lt. }
    assert (Hs : bpow (prec + emin) <= bpow 0) by (apply bpow_le; unfold prec, emin; lia).
    rewrite bpow_0 in Hs. lra. }
  exists m, (e - 1)%Z. split; [|split; [exact Hm|lia]].
  replace (e - 1)%Z with (e + -1)%Z by lia. rewrite bpow_add, Hx.
  change (bpow (-1)) with (/ (2 * 1)). field.
Qed.

Lemma round_1 : round 1 = 1.
Proof. apply (round_of_format 1), (format_IZR 1). reflexivity. Qed.

Lemma round_m1 : round (-1) = -1.
Proof. apply (round_of_format (-1)), (format_IZR (-1)). reflexivity. Qed.

(** Reals within a quarter of the last place below 1 round up to 1. *)
Lemma round_near_1 (t : R) : 1 - bpow (-25) < t <= 1 -> round t = 1.
Proof.
  intros [Hl [Hu|Hu]]; [|subst t; apply round_1].
  assert (Hb25 : bpow (-25) = / 33554432) by (unfold bpow; simpl; field).
  assert (Hm : mag t = 0%Z).
  { apply mag_unique. rewrite Rabs_pos_eq by lra.
    change (bpow (0 - 1)) with (/ (2 * 1)). rewrite bpow_0. lra. }
  assert (Hc : cexp t = (-24)%Z) by (unfold cexp; rewrite Hm; reflexivity).
  unfold round. rewrite Hc.
  rewrite (ZnearestE_near 16777216).
  - unfold bpow. simpl. field.
  - change (bpow (- -24)) with (bpow 24). rewrite (bpow_IZR 24) by lia.
    change (2 ^ 24)%Z with 16777216%Z.
    apply Rabs_def1; lra.
Qed.

Lemma round_near_m1 (t : R) : -1 <= t < -1 + bpow (-25) -> round t = -1.
Proof.
  intros [[Hl|Hl] Hu]; [|subst t; apply round_m1].
  assert (Hb25 : bpow (-25) = / 33554432) by (unfold bpow; simpl; field).
  assert (Hm : mag t = 0%Z).
  { apply mag_unique. rewrite Rabs_left1 by lra.
    change (bpow (0 - 1)) with (/ (2 * 1)). rewrite bpow_0. lra. }
  assert (Hc : cexp t = (-24)%Z) by (unfold cexp; rewrite Hm; reflexivity).
  unfold round. rewrite Hc.
  rewrite (ZnearestE_near (-16777216)).
  - unfold bpow. simpl. field.
  - change (bpow (- -24)) with (bpow 24). rewrite (bpow_IZR 24) by lia.
    change (2 ^ 24)%Z with 16777216%Z.
    apply Rabs_def1; lra.
Qed.

Lemma tanh_opp (x : R) : tanh (- x) = - tanh x.
Proof.
  rewrite !tanh_exp, Ropp_involutive.
  pose proof (exp_pos x). pose proof (exp_pos (- x)). field. lra.
Qed.

Lemma one_minus_tanh (x : R) : 1 - tanh x = 2 / (exp (2 * x) + 1).
Proof.
  rewrite tanh_exp. replace (2 * x) with (x + x) by ring. rewrite exp_plus.
  pose proof (exp_pos x) as Hp. pose proof (exp_neg_inv x) as Hi.
  assert (Hx : exp (- x) = / exp x).
  { apply Rmult_eq_reg_r with (exp x); [|lra]. rewrite Rinv_l by lra. exact Hi. }
  rewrite Hx. field. split; nra.
Qed.

Lemma tanh32_range (x : R) : -1 <= tanh32 x <= 1.
Proof.
  unfold tanh32. pose proof (tanh_bounds x). split.
  - apply round_ge_format; [apply round_m1|lra].
  - apply round_le_format; [apply round_1|lra].
Qed.

Lemma tanh32_saturates_pos (x : R) : bpow 26 < exp (2 * x) -> tanh32 x = 1.
Proof.
  intros H. unfold tanh32. apply round_near_1.
  pose proof (tanh_bounds x). split; [|lra].
  pose proof (one_minus_tanh x) as Ht.
  assert (Hb25 : bpow (-25) = / 33554432) by (unfold bpow; simpl; field).
  assert (Hb26 : bpow 26 = 67108864) by (unfold bpow; simpl; ring).
  rewrite Hb26 in H. rewrite Hb25.
  assert (Hq : 2 / (exp (2 * x) + 1) < / 33554432).
  { apply Rmult_lt_reg_r with (exp (2 * x) + 1); [lra|].
    unfold Rdiv. rewrite Rmult_assoc, Rinv_l by lra. lra. }
  lra.
Qed.

Lemma tanh32_saturates_neg (x : R) : bpow 26 < exp (- (2 * x)) -> tanh32 x = -1.
Proof.
  intros H. unfold tanh32. apply round_near_m1.
  pose proof (tanh_bounds x). split; [lra|].
  pose proof (one_minus_tanh (- x)) as Ht. rewrite tanh_opp in Ht.
  replace (2 * - x) with (- (2 * x)) in Ht by ring.
  assert (Hb25 : bpow (-25) = / 33554432) by (unfold bpow; simpl; field).
  assert (Hb26 : bpow 26 = 67108864) by (unfold bpow; simpl; ring).
  rewrite Hb26 in H. rewrite Hb25.
  assert (Hq : 2 / (exp (- (2 * x)) + 1) < / 33554432).
  { apply Rmult_lt_reg_r with (exp (- (2 * x)) + 1); [lra|].
    unfold Rdiv. rewrite Rmult_assoc, Rinv_l by lra. lra. }
  lra.
Qed.

Lemma exp_mult_nat (a : R) (n : nat) : exp (INR n * a) = exp a ^ n.
Proof.
  induction n as [|n IH].
  - simpl. rewrite Rmult_0_l. apply exp_0.
  - rewrite S_INR, Rmult_plus_distr_r, Rmult_1_l, exp_plus, IH. simpl. ring.
Qed.

Lemma exp_20_lower : bpow 26 < exp 20.
Proof.
  replace 20 with (INR 160 * / 8) by (simpl; field).
  rewrite exp_mult_nat.
  apply Rlt_le_trans with ((9 / 8) ^ 160).
  - assert (Hb26 : bpow 26 = 67108864) by (unfold bpow; simpl; ring).
    rewrite Hb26. unfold Rdiv. rewrite Rpow_mult_distr, pow_inv.
    apply Rmult_lt_reg_r with (8 ^ 160); [apply pow_lt; lra|].
    rewrite Rmult_assoc, Rinv_l, Rmult_1_r by (apply pow_nonzero; lra).
    rewrite !pow_IZR, <- mult_IZR. apply IZR_lt. reflexivity.
  - apply pow_incr. pose proof (exp_ineq1_le (/ 8)). lra.
Qed.

Lemma exp_14_upper : exp 14 <= 4782969.
Proof.
  replace 14 with (INR 14 * 1) by (simpl; ring).
  rewrite exp_mult_nat.
  apply Rle_trans with (3 ^ 14).
  - apply pow_incr. pose proof (exp_pos 1). pose proof exp_le_3. lra.
  - rewrite pow_IZR. apply IZR_le. reflexivity.
Qed.

Lemma exp_monotone (x y : R) : x <= y -> exp x <= exp y.
Proof.
  intros [H| ->]; [left; now apply exp_increasing|lra].
Qed.

(** From 10 on the squash returns exactly 1 or -1. *)
Lemma tanh32_saturated (x : R) :
  10 <= Rabs x -> tanh32 x = 1 \/ tanh32 x = -1.
Proof.
  intros H. unfold Rabs in H. destruct (Rcase_abs x) as [Hn|Hp].
  - right. apply tanh32_saturates_neg.
    apply Rlt_le_trans with (1 := exp_20_lower). apply exp_monotone. lra.
  - left. apply tanh32_saturates_pos.
    apply Rlt_le_trans with (1 := exp_20_lower). apply exp_monotone. lra.
Qed.

Lemma format_below_1 : format (1 - bpow (-24)).
Proof.
  exists 16777215%Z, (-24)%Z. split; [|split; [reflexivity|unfold emin; lia]].
  unfold bpow. simpl. field.
Qed.

(** Up to 7 in magnitude the squash stays strictly inside the interval. *)
Lemma tanh32_unsaturated (x : R) : Rabs x <= 7 -> -1 < tanh32 x < 1.
Proof.
  intros H0.
  assert (H : -7 <= x <= 7) by (unfold Rabs in H0; destruct (Rcase_abs x); lra).
  assert (Hb24 : bpow (-24) = / 16777216) by (unfold bpow; simpl; field).
  assert (Hup : forall y, y <= 7 -> tanh y <= 1 - bpow (-24)).
  { intros y Hy. pose proof (one_minus_tanh y) as Ht.
    assert (He : exp (2 * y) <= 4782969).
    { apply Rle_trans with (2 := exp_14_upper). apply exp_monotone. lra. }
    pose proof (exp_pos (2 * y)) as Hp.
    assert (Hq : / 16777216 <= 2 / (exp (2 * y) + 1)).
    { apply Rmult_le_reg_r with (exp (2 * y) + 1); [lra|].
      unfold Rdiv. rewrite (Rmult_assoc 2), Rinv_l by lra. lra. }
    rewrite Hb24. lra. }
  unfold tanh32. split.
  - apply Rlt_le_trans with (- (1 - bpow (-24))); [rewrite Hb24; lra|].
    apply round_ge_format; [apply round_of_format, format_opp, format_below_1|].
    pose proof (Hup (- x) ltac:(lra)) as Hm. rewrite tanh_opp in Hm. lra.
  - apply Rle_lt_trans with (1 - bpow (-24)); [|rewrite Hb24; lra].
    apply round_le_format; [apply round_of_format, format_below_1|].
    apply Hup. lra.
Qed.

End Tanh32.

(* ================================================================= *)
(** ** Sampling with the squash in binary32 *)

Section Sampling32.

Variable p : GaussianPolicy.

Lemma actions32_of_raw (c : list Tensor) (g : Generator) :
  actions32 p c g =
  (result_map (map (forward32 (squash_bijector p))) (fst (raw_actions p c g)),
   snd (raw_actions p c g)).
Proof.
  unfold actions32, actions_model32. now destruct (raw_actions p c g).
Qed.

Lemma forward32_length (x : list R) :
  length (forward32 (squash_bijector p) x) = length x.
Proof.
  unfold squash_bijector. destruct (_squash p); simpl; [apply length_map|reflexivity].
Qed.

Lemma forward32_nth (x : list R) (j : nat) :
  (j < length x)%nat ->
  nth j (forward32 (squash_bijector p) x) 0
  = if _squash p then tanh32 (nth j x 0) else nth j x 0.
Proof.
  intros Hj. unfold squash_bijector. destruct (_squash p); simpl; [|reflexivity].
  now apply nth_map_lt.
Qed.


Lemma actions32_rows (c : list Tensor) (g : Generator) (conditions : list (list R)) :
  conditions_layer p c = Ok conditions ->
  exists acts raw g',
    raw_actions p c g = (Ok raw, g') /\
    actions32 p c g = (Ok acts, g') /\
    length acts = length conditions /\
    length raw = length conditions /\
    forall i, (i < length conditions)%nat ->
      length (nth i raw []) = output_shape p /\
      nth i acts [] = forward32 (squash_bijector p) (nth i raw []) /\
      forall j, (j < output_shape p)%nat ->
        nth j (nth i raw []) 0 =
        nth j (fst (shift_and_log_scale_diag p (nth i conditions []))) 0
        + exp (nth j (snd (shift_and_log_scale_diag p (nth i conditions []))) 0)
          * stream g (position g + i * output_shape p + j)%nat.
Proof.
  intros Hc. destruct (conditions_layer_rows p _ _ Hc) as [Hn Hrow].
  destruct (raw_actions_rows p c g _ Hc) as (raw & g' & Hraw & Hlen & _ & _ & Hrows).
  exists (map (forward32 (squash_bijector p)) raw), raw, g'.
  split; [exact Hraw|].
  split; [rewrite actions32_of_raw, Hraw; reflexivity|].
  split; [rewrite length_map; congruence|]. split; [congruence|].
  intros i Hi. rewrite Hn in Hi. destruct (Hrows i Hi) as [Hrl Hrj].
  split; [exact Hrl|]. split.
  - apply nth_map_lt. lia.
  - intros j Hj. rewrite (Hrow i Hi). exact (Hrj j Hj).
Qed.

Lemma actions32_shape (c : list Tensor) (g g' : Generator)
    (conditions acts : list (list R)) :
  conditions_layer p c = Ok conditions ->
  actions32 p c g = (Ok acts, g') ->
  has_shape (length conditions) (output_shape p) acts = true.
Proof.
  intros Hc Ha.
  destruct (actions32_rows c g _ Hc) as (acts0 & raw & g0 & _ & Ha0 & Hlen & _ & Hrows).
  rewrite Ha in Ha0. injection Ha0 as <- <-.
  apply has_shape_spec. split; [exact Hlen|].
  apply Forall_nth. intros i d Hi. rewrite (nth_indep _ d []) by assumption.
  rewrite Hlen in Hi. destruct (Hrows i Hi) as (Hrl & -> & _).
  now rewrite forward32_length.
Qed.

Lemma forward32_closed_range (x : list R) :
  _squash p = true ->
  Forall (fun a => -1 <= a <= 1) (forward32 (squash_bijector p) x).
Proof.
  intros Hsq. unfold squash_bijector. rewrite Hsq. simpl.
  apply Forall_forall. intros a Ha. apply in_map_iff in Ha.
  destruct Ha as [t [<- _]]. apply tanh32_range.
Qed.

End Sampling32.


Lemma saturated_raw_actions :
  exists g',
    raw_actions Saturated.policy Saturated.conditions Saturated.generator
    = (Ok [[50]], g').
Proof.
  eexists. unfold raw_actions. cbn -[exp Rplus Rmult clip_by_value INR].
  match goal with
  | |- (Ok [[?e]], _) = _ => replace e with 50 by ring
  end.
  reflexivity.
Qed.

Lemma saturated_actions32 :
  exists g',
    actions32 Saturated.policy Saturated.conditions Saturated.generator
    = (Ok [[1]], g').
Proof.
  destruct saturated_raw_actions as [g' Hraw]. exists g'.
  rewrite actions32_of_raw, Hraw. cbn [fst snd result_map map].
  unfold squash_bijector. cbn [Saturated.policy _squash forward32 map].
  replace (tanh32 50) with 1; [reflexivity|].
  symmetry. apply tanh32_saturates_pos.
  apply Rlt_le_trans with (1 := exp_20_lower). apply exp_monotone. lra.
Qed.

(** C6, where the claim fails: the policy with shift 50 returns the action
    1, which is not strictly inside the interval. *)
Lemma actions32_reach_the_boundary :
  exists acts g',
    actions32 Saturated.policy Saturated.conditions Saturated.generator = (Ok acts, g')
    /\ _squash Saturated.policy = true
    /\ ~ Forall (Forall (fun a => -1 < a < 1)) acts.
Proof.
  destruct saturated_actions32 as [g' Ha]. exists [[1]], g'.
  split; [exact Ha|]. split; [reflexivity|].
  intros H. inversion H as [|r rs Hr _]; subst.
  inversion Hr as [|a l Hx _]; subst. lra.
Qed.

(** C6: on condition inputs of the declared shapes and batch size [batch],
    [actions] returns a tensor of shape [(batch, A)].  With squashing on,
    every entry lies in the closed interval from -1 to 1: the binary32
    squash returns 1 or -1 itself once the value before the squash reaches
    10 in magnitude, and stays strictly inside up to 7.  With squashing off
    no bound holds: for every bound some latent draw puts a chosen entry
    above it, and some draw puts it below the negated bound. *)
Theorem actions32_shape_and_closed_range
    (p : GaussianPolicy) (c : list Tensor) (conditions : list (list R)) :
  conditions_layer p c = Ok conditions ->
  (forall g, exists acts raw g',
      raw_actions p c g = (Ok raw, g') /\
      actions32 p c g = (Ok acts, g') /\
      length conditions = batch_of c /\
      has_shape (batch_of c) (output_shape p) acts = true /\
      (_squash p = true ->
       Forall (Forall (fun a => -1 <= a <= 1)) acts /\
       forall i j, (i < batch_of c)%nat -> (j < output_shape p)%nat ->
         (10 <= Rabs (nth j (nth i raw []) 0) ->
          nth j (nth i acts []) 0 = 1 \/ nth j (nth i acts []) 0 = -1) /\
         (Rabs (nth j (nth i raw []) 0) <= 7 ->
          -1 < nth j (nth i acts []) 0 < 1))) /\
  (_squash p = false ->
   forall i j B, (i < batch_of c)%nat -> (j < output_shape p)%nat ->
     (exists g acts g',
         actions32 p c g = (Ok acts, g') /\ B < nth j (nth i acts []) 0) /\
     (exists g acts g',
         actions32 p c g = (Ok acts, g') /\ nth j (nth i acts []) 0 < - B)).
Proof.
  intros Hc. destruct (conditions_layer_rows p _ _ Hc) as [Hn _]. split.
  - intros g.
    destruct (actions32_rows p c g _ Hc) as (acts & raw & g' & Hraw & Ha & Hlen & _ & Hrows).
    exists acts, raw, g'. split; [exact Hraw|]. split; [exact Ha|].
    split; [exact Hn|]. split.
    { rewrite <- Hn. exact (actions32_shape p c g g' _ _ Hc Ha). }
    intros Hsq. split.
    + apply Forall_nth. intros i d Hi. rewrite (nth_indep _ d []) by assumption.
      rewrite Hlen in Hi. destruct (Hrows i Hi) as (_ & -> & _).
      now apply forward32_closed_range.
    + intros i j Hi Hj. rewrite <- Hn in Hi.
      destruct (Hrows i Hi) as (Hrl & -> & _).
      rewrite forward32_nth, Hsq by lia. split.
      * apply tanh32_saturated.
      * apply tanh32_unsaturated.
  - intros Hsq i j B Hi Hj. rewrite <- Hn in Hi.
    set (s := nth j (fst (shift_and_log_scale_diag p (nth i conditions []))) 0).
    set (l := nth j (snd (shift_and_log_scale_diag p (nth i conditions []))) 0).
    pose proof (exp_pos l) as Hl.
    assert (Hentry : forall z,
      exists g acts g',
        actions32 p c g = (Ok acts, g') /\
        nth j (nth i acts []) 0 = s + exp l * z).
    { intros z. set (g := {| stream := fun _ => z; position := 0 |}).
      destruct (actions32_rows p c g _ Hc) as (acts & raw & g' & _ & Ha & _ & _ & Hrows).
      exists g, acts, g'. split; [exact Ha|].
      destruct (Hrows i Hi) as (Hrl & -> & Hij).
      rewrite forward32_nth, Hsq by lia. now rewrite (Hij j Hj). }
    split.
    + destruct (Hentry ((B + 1 - s) / exp l)) as (g & acts & g' & Ha & He).
      exists g, acts, g'. split; [exact Ha|]. rewrite He.
      replace (s + exp l * ((B + 1 - s) / exp l)) with (B + 1) by (field; lra). lra.
    + destruct (Hentry ((- B - 1 - s) / exp l)) as (g & acts & g' & Ha & He).
      exists g, acts, g'. split; [exact Ha|]. rewrite He.
      replace (s + exp l * ((- B - 1 - s) / exp l)) with (- B - 1) by (field; lra). lra.
Qed.

Lemma actions32_shape_and_closed_range_witness :
  exists acts g',
    actions32 Scenario.policy Scenario.conditions Scenario.generator = (Ok acts, g')
    /\ has_shape 4 2 acts = true
    /\ Forall (Forall (fun a => -1 <= a <= 1)) acts.
Proof.
  destruct (actions32_shape_and_closed_range
              Scenario.policy Scenario.conditions Scenario.concatenated)
    as [H _]; [reflexivity|].
  destruct (H Scenario.generator) as (acts & raw & g' & _ & Ha & _ & Hs & Hr).
  exists acts, g'. split; [exact Ha|]. split; [exact Hs|].
  apply Hr. reflexivity.
Defined.

(* ================================================================= *)
(** ** Scoring what was sampled *)

Section SampledScore32.

Variable p : GaussianPolicy.



End SampledScore32.




(* ================================================================= *)
(** ** The log-det-Jacobian of the squash in binary32 *)

Section Jacobian32.

Import Binary32.

Ltac abs_lra := unfold Rabs in *; repeat destruct Rcase_abs; lra.

Lemma bpow_m24 : bpow (-24) = / 16777216.
Proof. unfold bpow. simpl. lra. Qed.

Lemma bpow_m20 : bpow (-20) = / 1048576.
Proof. unfold bpow. simpl. lra. Qed.

Lemma bpow_m26 : bpow (-26) = / 67108864.
Proof. unfold bpow. simpl. lra. Qed.

Lemma bpow_26 : bpow 26 = 67108864.
Proof. unfold bpow. simpl. lra. Qed.

Lemma bpow_m126_le_half : bpow (-126) <= / 2.
Proof.
  replace (/ 2) with (bpow (-1)) by (unfold bpow; simpl; lra).
  apply bpow_le. lia.
Qed.

Lemma bpow_128 : bpow 128 = 2 * bpow 127.
Proof. change 128%Z with (1 + 127)%Z. rewrite bpow_add. unfold bpow at 1. simpl. lra. Qed.

Lemma bpow_127_ge (t : R) : t <= bpow 100 -> 8 * t <= bpow 127.
Proof.
  intros Ht. apply Rle_trans with (bpow 103).
  - change 103%Z with (3 + 100)%Z. rewrite bpow_add.
    replace (bpow 3) with 8 by (unfold bpow; simpl; lra). lra.
  - apply bpow_le. lia.
Qed.

(** One binary32 operation whose exact result [y] lies in the normal
    range: the rounded result is finite and within [2^-24 * L] of [y],
    for any bound [L] on the magnitude of [y]. *)
Lemma rnd_relative (y L : R) :
  / 2 <= Rabs y <= L -> L <= bpow 127 ->
  exists r, rnd y = Some r /\ - (/ 16777216 * L) <= r - y <= / 16777216 * L.
Proof.
  intros [Hy1 HyL] HL.
  assert (He : Rabs (round y - y) <= / 16777216 * Rabs y).
  { rewrite <- bpow_m24. apply round_relative_error.
    apply Rle_trans with (/ 2); [exact bpow_m126_le_half|exact Hy1]. }
  exists (round y). split.
  - apply rnd_Some. unfold emax. rewrite bpow_128.
    pose proof (bpow_pos 127). abs_lra.
  - abs_lra.
Qed.

Lemma rnd_small (y : R) :
  0 <= y <= / 67108864 ->
  exists r, rnd y = Some r /\ 0 <= r <= / 67108864.
Proof.
  intros [H0 H1]. exists (round y).
  assert (Hb : round (bpow (-26)) = bpow (-26)).
  { apply round_of_format. exists 1%Z, (-26)%Z.
    split; [lra|]. split; [reflexivity|unfold emin; lia]. }
  assert (Hr : 0 <= round y <= / 67108864).
  { split; [now apply round_nonneg|].
    rewrite <- bpow_m26. apply round_le_format; [exact Hb|rewrite bpow_m26; exact H1]. }
  split; [|exact Hr].
  apply rnd_Some. unfold emax. rewrite bpow_128.
  pose proof (bpow_pos 127).
  assert (1 <= bpow 127).
  { rewrite <- bpow_0. apply bpow_le. lia. }
  abs_lra.
Qed.

Lemma rnd_double_format (x : R) :
  format x -> Rabs x <= bpow 100 -> rnd (-2 * x) = Some (-2 * x).
Proof.
  intros Hf Hx. apply rnd_format.
  - apply round_of_format. replace (-2 * x) with (- (2 * x)) by ring.
    apply format_opp, format_double, Hf.
  - unfold emax. rewrite bpow_128. pose proof (bpow_127_ge _ Hx).
    pose proof (Rabs_pos x). pose proof (bpow_pos 127).
    replace (-2 * x) with (- (2 * x)) by ring.
    rewrite Rabs_Ropp, Rabs_mult, (Rabs_pos_eq 2) by lra. lra.
Qed.

Lemma softplus_le_exp (x : R) : softplus x <= exp x.
Proof.
  unfold softplus. pose proof (exp_pos x) as He.
  rewrite <- (ln_exp (exp x)) at 2.
  left. apply ln_increasing; [lra|].
  apply exp_ineq1. lra.
Qed.

Lemma softplus_far_left (x : R) : 10 <= x -> 0 < softplus (-2 * x) <= / 67108864.
Proof.
  intros Hx. split; [apply softplus_pos|].
  apply Rle_trans with (exp (-2 * x)); [apply softplus_le_exp|].
  apply Rle_trans with (exp (Ropp 20)); [apply exp_monotone; lra|].
  rewrite exp_Ropp. left. apply Rinv_lt_contravar.
  - pose proof (exp_pos 20). lra.
  - rewrite <- bpow_26. exact exp_20_lower.
Qed.

Lemma softplus_far_right (x : R) :
  x <= -10 -> -2 * x < softplus (-2 * x) <= -2 * x + ln 2.
Proof.
  intros Hx. rewrite (softplus_shift (-2 * x)).
  pose proof (softplus_pos (- (-2 * x))).
  pose proof (softplus_nonpos_le (- (-2 * x))).
  lra.
Qed.

Lemma rnd_ln_2 :
  exists l2, rnd (ln 2) = Some l2 /\ - / 16777216 <= l2 - ln 2 <= / 16777216.
Proof.
  pose proof ln_lt_2. pose proof ln_2_lt_1.
  destruct (rnd_relative (ln 2) 1) as (l2 & Hl & Hb).
  - abs_lra.
  - rewrite <- bpow_0. apply bpow_le. lia.
  - exists l2. split; [exact Hl|lra].
Qed.

(** The stable formula evaluated in binary32, at a binary32 number of
    magnitude between 10 and 2^100: every intermediate result is finite,
    and the result is within [2^-20 * |x|] of the exact value. *)
Lemma jacobian32_accurate (x : R) :
  format x -> 10 <= Rabs x <= bpow 100 ->
  exists v,
    SquashBijector_forward_log_det_jacobian32 x = Some v /\
    Rabs (v - SquashBijector_forward_log_det_jacobian x) <= bpow (-20) * Rabs x.
Proof.
  intros Hf [H10 H100].
  pose proof (bpow_127_ge _ H100) as HB.
  pose proof ln_lt_2 as Hl1. pose proof ln_2_lt_1 as Hl2.
  destruct rnd_ln_2 as (l2 & El2 & Hl).
  unfold SquashBijector_forward_log_det_jacobian32, SquashBijector_forward_log_det_jacobian.
  rewrite El2. cbn [obind].
  rewrite (rnd_double_format x Hf H100). cbn [obind].
  rewrite bpow_m20.
  assert (Hs : exists s, rnd (softplus (-2 * x)) = Some s /\
                 - (/ 16777216 * (2 * Rabs x + 1)) <= s - softplus (-2 * x)
                   <= / 16777216 * (2 * Rabs x + 1)).
  { destruct (Rle_dec 0 x) as [Hp|Hn].
    - assert (Hx : 10 <= x) by abs_lra.
      pose proof (softplus_far_left x Hx) as Hsp.
      destruct (rnd_small (softplus (-2 * x))) as (s & Es & Hs); [lra|].
      exists s. split; [exact Es|]. abs_lra.
    - assert (Hx : x <= -10) by abs_lra.
      pose proof (softplus_far_right x Hx) as Hsp.
      destruct (rnd_relative (softplus (-2 * x)) (2 * Rabs x + 1)) as (s & Es & Hs).
      + abs_lra.
      + abs_lra.
      + exists s. split; [exact Es|]. exact Hs. }
  destruct Hs as (s & Es & Hs). rewrite Es. cbn [obind].
  assert (Hsp : - Rabs x <= ln 2 - x - softplus (-2 * x) <= 1 - Rabs x).
  { destruct (Rle_dec 0 x) as [Hp|Hn].
    - assert (Hx : 10 <= x) by abs_lra.
      pose proof (softplus_far_left x Hx). abs_lra.
    - assert (Hx : x <= -10) by abs_lra.
      pose proof (softplus_far_right x Hx). abs_lra. }
  destruct (rnd_relative (l2 - x) (Rabs x + 2)) as (a & Ea & Ha);
    [abs_lra|abs_lra|].
  rewrite Ea. cbn [obind].
  destruct (rnd_relative (a - s) (2 * Rabs x)) as (b & Eb & Hb);
    [abs_lra|abs_lra|].
  rewrite Eb. cbn [obind].
  destruct (rnd_relative (2 * b) (5 * Rabs x)) as (v & Ev & Hv);
    [abs_lra|abs_lra|].
  exists v. split; [exact Ev|]. abs_lra.
Qed.

Lemma naive32_fails (x : R) : 10 <= Rabs x -> naive_log_det_jacobian32 x = None.
Proof.
  intros Hx. unfold naive_log_det_jacobian32.
  assert (Hq : tanh32 x * tanh32 x = 1)
    by (destruct (tanh32_saturated x Hx) as [E|E]; rewrite E; ring).
  rewrite Hq.
  assert (H1 : rnd 1 = Some 1).
  { apply rnd_format; [exact round_1|].
    rewrite Rabs_pos_eq by lra. rewrite <- bpow_0. apply bpow_lt. unfold emax. lia. }
  rewrite H1. cbn [obind].
  replace (1 - 1) with 0 by ring.
  assert (H0 : rnd 0 = Some 0).
  { apply rnd_format; [exact round_0|]. rewrite Rabs_R0. apply bpow_pos. }
  rewrite H0. cbn [obind].
  destruct (Rlt_dec 0 0) as [H|H]; [lra|reflexivity].
Qed.

(** Past the binary32 range the product [-2.0 * x] itself overflows. *)
Lemma jacobian32_overflows :
  SquashBijector_forward_log_det_jacobian32 (bpow 127) = None.
Proof.
  destruct rnd_ln_2 as (l2 & El2 & _).
  unfold SquashBijector_forward_log_det_jacobian32. rewrite El2. cbn [obind].
  assert (Hr : round (-2 * bpow 127) = -2 * bpow 127).
  { apply round_of_format. exists (-1)%Z, 128%Z.
    split; [rewrite bpow_128; lra|]. split; [reflexivity|unfold emin; lia]. }
  assert (Hn : rnd (-2 * bpow 127) = None).
  { unfold rnd. rewrite Hr. destruct Rlt_dec as [H|H]; [|reflexivity].
    exfalso. unfold emax in H. rewrite bpow_128 in H.
    pose proof (bpow_pos 127). abs_lra. }
  rewrite Hn. reflexivity.
Qed.

End Jacobian32.

(** C2: the log-det-Jacobian of the squash is the stable expression, which
    over the reals is the logarithm of [1 - tanh(x)^2]; evaluated in
    binary32 at a binary32 number [x] of magnitude between 10 and 2^100
    (at 50, say) it is a finite negative number of magnitude at least
    [|x|], within [2^-20 * |x|] of the exact value, where the textbook form
    evaluated in binary32 takes the logarithm of zero. *)
Theorem squash_log_det_jacobian_stable_in_binary32 :
  (forall x : R,
      SquashBijector_forward_log_det_jacobian x = 2 * (ln 2 - x - softplus (-2 * x))) /\
  (forall x : R,
      SquashBijector_forward_log_det_jacobian x = ln (1 - tanh x ^ 2)) /\
  (forall x : R,
      Binary32.format x -> 10 <= Rabs x <= Binary32.bpow 100 ->
      naive_log_det_jacobian32 x = None /\
      exists v : R,
        SquashBijector_forward_log_det_jacobian32 x = Some v /\
        Rabs (v - ln (1 - tanh x ^ 2)) <= Binary32.bpow (-20) * Rabs x /\
        v <= - Rabs x) /\
  (naive_log_det_jacobian32 50 = None /\
   exists v : R,
     SquashBijector_forward_log_det_jacobian32 50 = Some v /\ -100 <= v <= -97).
Proof.
  assert (Hrange : forall x : R,
      Binary32.format x -> 10 <= Rabs x <= Binary32.bpow 100 ->
      naive_log_det_jacobian32 x = None /\
      exists v : R,
        SquashBijector_forward_log_det_jacobian32 x = Some v /\
        Rabs (v - ln (1 - tanh x ^ 2)) <= Binary32.bpow (-20) * Rabs x /\
        v <= - Rabs x).
  { intros x Hf Hx. split; [apply naive32_fails, Hx|].
    destruct (jacobian32_accurate x Hf Hx) as (v & Ev & Hv).
    exists v. split; [exact Ev|].
    pose proof (squash_fldj_bounds x) as Hb. pose proof ln_2_lt_1 as Hl.
    rewrite squash_fldj_naive in Hv, Hb. unfold naive_log_det_jacobian in Hv, Hb.
    split; [exact Hv|].
    rewrite bpow_m20 in Hv. destruct Hx as [Hx _].
    revert Hv Hb Hx. generalize (ln (1 - tanh x ^ 2)). intros J.
    unfold Rabs. repeat destruct Rcase_abs; lra. }
  split; [reflexivity|]. split; [exact squash_fldj_naive|]. split; [exact Hrange|].
  assert (Hf : Binary32.format 50) by (apply format_IZR; reflexivity).
  assert (Hx : 10 <= Rabs 50 <= Binary32.bpow 100).
  { rewrite Rabs_pos_eq by lra. split; [lra|].
    apply Rle_trans with (Binary32.bpow 6); [unfold Binary32.bpow; simpl; lra|].
    apply bpow_le. lia. }
  split; [apply naive32_fails, Hx|].
  destruct (jacobian32_accurate 50 Hf Hx) as (v & Ev & Hv).
  exists v. split; [exact Ev|].
  assert (H50 : 10 <= 50) by lra.
  pose proof (softplus_far_left 50 H50) as Hs.
  pose proof ln_2_lt_1 as Hl1. pose proof ln_lt_2 as Hl2.
  unfold SquashBijector_forward_log_det_jacobian in Hv.
  rewrite bpow_m20, (Rabs_pos_eq 50) in Hv by lra.
  revert Hv. unfold Rabs. destruct Rcase_abs; lra.
Qed.

Lemma squash_log_det_jacobian_stable_in_binary32_witness :
  naive_log_det_jacobian32 (-16) = None /\
  exists v : R, SquashBijector_forward_log_det_jacobian32 (-16) = Some v /\ v <= -16.
Proof.
  destruct squash_log_det_jacobian_stable_in_binary32 as (_ & _ & H & _).
  assert (Hf : Binary32.format (-16)) by (apply format_IZR; reflexivity).
  assert (Ha : Rabs (-16) = 16).
  { unfold Rabs. destruct Rcase_abs; lra. }
  assert (Hx : 10 <= Rabs (-16) <= Binary32.bpow 100).
  { rewrite Ha. split; [lra|].
    apply Rle_trans with (Binary32.bpow 4); [unfold Binary32.bpow; simpl; lra|].
    apply bpow_le. lia. }
  destruct (H (-16) Hf Hx) as [Hn (v & Ev & _ & Hv)].
  split; [exact Hn|]. exists v. split; [exact Ev|]. rewrite Ha in Hv. exact Hv.
Defined.

(* ================================================================= *)
(** ** Repeated calls of the sampling path *)

Section RepeatedCalls.

Variable p : GaussianPolicy.




End RepeatedCalls.






